(** * transaction-log-idb: the simple and the batched transaction log

    A shallow embedding of the classes [IDBSimpleTransactionLog] and
    [IDBBatchedTransactionLog], together with a model of the part of
    IndexedDB the two classes call through the [idb] wrapper.

    - A database is looked up by name in a [World] (a finite map from
      names to databases), so that two log objects built for one name
      share what is persisted.
    - An object store is a key generator and its records in ascending key
      order ([store_ok]); a read-write transaction works on a copy of the
      database that is installed when the transaction completes and
      dropped, key generators included, when it aborts.
    - A log object is a record of its fields; a method maps the state
      (world and object) to the new state and either a value or the
      exception thrown.
    - The logs are built without the optional [callbacks] argument, so
      every [this.callbacks.on...?.apply] is skipped; the methods of logs
      built with callbacks are modelled apart, in [BatchedHooks] and
      [SimpleHooks].
    - [performance.now()] readings are arguments of the methods that take
      one; the failures the store can report during a write are arguments
      as well. *)

From stdpp Require Import gmap strings list sorting.

Local Open Scope Z_scope.

(** ** Exceptions *)

(** The message constants imported from [@mightylittle/transaction-log],
    and the two literals the classes use themselves. *)
Inductive message : Type :=
  | LOG_CLOSED_MESSAGE
  | LOG_ALREADY_OPEN_MESSAGE
  | LOG_ALREADY_CLOSED_MESSAGE
  | LOG_OPEN_CANNOT_CLEAR_MESSAGE
  | INVALID_SEQUENCE_ID_MESSAGE
  | FAILED_TO_COMMIT_TRANSACTIONS_MESSAGE
  | TRANSACTION_NOT_FOUND      (* "Transaction not found." *)
  | DB_NAME_MUST_BE_SET.       (* "db-name must be set" *)

(** The names of the [DOMException]s the store raises in this model. *)
Inductive dom_name : Type :=
  | DataError
  | InvalidStateError
  | AbortError
  | QuotaExceededError
  | UnknownError.

Inductive exception : Type :=
  | Error (m : message)          (* [new Error(m)], thrown by a log method *)
  | DOMException (n : dom_name)  (* thrown by the store *)
  | Thrown (e : string).         (* thrown by a [replay] callback *)

Inductive result (A : Type) : Type :=
  | Ok (a : A)
  | Err (e : exception).
Arguments Ok {A} a.
Arguments Err {A} e.

(** [result] is an exception monad; [x ← r; k] runs [k] unless [r] threw. *)
Global Instance result_ret : MRet result := λ A a, Ok a.
Global Instance result_bind : MBind result := λ A B k r,
  match r with
  | Ok a => k a
  | Err e => Err e
  end.

(** A loop [for (const x of xs) { ys.push(await f(x)) }] whose body may
    throw: the first exception ends the loop. *)
Fixpoint for_each {A B} (f : A → result B) (xs : list A) : result (list B) :=
  match xs with
  | [] => Ok []
  | x :: xs' =>
      y ← f x;
      ys ← for_each f xs';
      Ok (y :: ys)
  end.

(** JavaScript truthiness of an optional integer argument: [undefined]
    and [0] are falsy. *)
Definition truthy (n : option Z) : bool :=
  match n with
  | None => false
  | Some z => negb (z =? 0)
  end.

(** ** Records of the data model *)

(** [Transaction<T>]: [id] is absent until the store has assigned one. *)
Record Transaction (T Time : Type) : Type := mkTransaction {
  txn_id : option positive;
  txn_time : Time;
  txn_data : T
}.
Arguments mkTransaction {T Time}.
Arguments txn_id {T Time}.
Arguments txn_time {T Time}.
Arguments txn_data {T Time}.

(** [Commit]: the ids of the transactions committed together. *)
Record Commit (Time : Type) : Type := mkCommit {
  commit_id : option positive;
  commit_time : Time;
  commit_transactions : list positive
}.
Arguments mkCommit {Time}.
Arguments commit_id {Time}.
Arguments commit_time {Time}.
Arguments commit_transactions {Time}.

(** [CommitInfo<T>]: a commit with its transactions resolved. *)
Record CommitInfo (T Time : Type) : Type := mkCommitInfo {
  info_id : positive;
  info_time : Time;
  info_transactions : list (Transaction T Time)
}.
Arguments mkCommitInfo {T Time}.
Arguments info_id {T Time}.
Arguments info_time {T Time}.
Arguments info_transactions {T Time}.

(** ** Object stores with [keyPath: "id", autoIncrement: true] *)

(** The in-line key of a stored value: where it is read and how a
    generated key is written into the stored copy. *)
Class KeyPath (V : Type) : Type := {
  keyPath : V → option positive;
  inject : positive → V → V
}.

Global Instance Transaction_KeyPath {T Time} : KeyPath (Transaction T Time) := {|
  keyPath := txn_id;
  inject k t := mkTransaction (Some k) (txn_time t) (txn_data t)
|}.

Global Instance Commit_KeyPath {Time} : KeyPath (Commit Time) := {|
  keyPath := commit_id;
  inject k c := mkCommit (Some k) (commit_time c) (commit_transactions c)
|}.

(** [keygen] is the current number of the key generator (1 in a new
    store); [records] are the stored (key, value) pairs. *)
Record ObjectStore (V : Type) : Type := mkObjectStore {
  keygen : positive;
  records : list (positive * V)
}.
Arguments mkObjectStore {V}.
Arguments keygen {V}.
Arguments records {V}.

(** A key range as built by [IDBKeyRange.lowerBound(lower, false)] and
    [IDBKeyRange.bound(lower, upper, false, false)]. *)
Inductive IDBKeyRange : Type :=
  | lowerBound (lower : Z)
  | bound (lower upper : Z).

(** [IDBKeyRange.bound] throws a [DataError] when lower is greater than
    upper. *)
Definition IDBKeyRange_bound (lower upper : Z) : result IDBKeyRange :=
  if upper <? lower then Err (DOMException DataError) else Ok (bound lower upper).

Definition includes (r : IDBKeyRange) (k : positive) : bool :=
  match r with
  | lowerBound lo => lo <=? Z.pos k
  | bound lo hi => (lo <=? Z.pos k) && (Z.pos k <=? hi)
  end.

Section ObjectStore.
Context {V : Type} `{!KeyPath V}.

Definition createObjectStore : ObjectStore V := mkObjectStore 1%positive [].

(** [store.add(value)] for a value without an id, which is what both
    classes pass ([{time, data}] and [{time, transactions}]): the
    generator's number becomes the key, is written into the stored copy,
    and the generator moves on. The new record goes last, the key being
    above those stored ([store_ok]). The result is the key. *)
Definition add (v : V) (s : ObjectStore V) : positive * ObjectStore V :=
  (keygen s,
   mkObjectStore (Pos.succ (keygen s)) (records s ++ [(keygen s, inject (keygen s) v)])).

(** [Promise.all(values.map(v => store.add(v)))]: the requests are placed
    in the order of the array, and the keys come back in that order. *)
Fixpoint add_all (vs : list V) (s : ObjectStore V) : list positive * ObjectStore V :=
  match vs with
  | [] => ([], s)
  | v :: vs' =>
      let '(k, s1) := add v s in
      let '(ks, s2) := add_all vs' s1 in
      (k :: ks, s2)
  end.

(** [db.get(store, key)]: the value stored under the key, or
    [undefined]. *)
Fixpoint get_record (k : positive) (rs : list (positive * V)) : option V :=
  match rs with
  | [] => None
  | (k', v) :: rs' => if Pos.eqb k k' then Some v else get_record k rs'
  end.

Definition get (k : positive) (s : ObjectStore V) : option V :=
  get_record k (records s).

(** [db.count(store)]. *)
Definition count (s : ObjectStore V) : Z := Z.of_nat (length (records s)).

(** [store.openCursor(range)] followed by [cursor.continue()] until it
    gives [null]: the records with a key in the range, in the order of
    the store, which is the ascending order of the keys ([store_ok]).
    Without a range every record is visited. *)
Definition openCursor (range : option IDBKeyRange) (s : ObjectStore V)
  : list (positive * V) :=
  match range with
  | None => records s
  | Some r => filter (λ kv, includes r kv.1 = true) (records s)
  end.

(** The records [add_all] appends when the generator stands at [k]. *)
Fixpoint stamp (k : positive) (vs : list V) : list (positive * V) :=
  match vs with
  | [] => []
  | v :: vs' => (k, inject k v) :: stamp (Pos.succ k) vs'
  end.

(** What the store maintains: keys ascend, each is below the generator's
    number, and each stored value carries its key. *)
Definition ascending (ks : list positive) : Prop :=
  StronglySorted Pos.lt ks.

Record store_ok (s : ObjectStore V) : Prop := {
  keys_ascend : ascending (records s).*1;
  keys_generated : Forall (λ k, (k < keygen s)%positive) (records s).*1;
  keys_inline : Forall (λ kv, keyPath kv.2 = Some kv.1) (records s)
}.
End ObjectStore.

(** *** Vocabulary of the statements about range queries *)

(** The key [k] lies in the inclusive range from [a] to [b], or from [a]
    on when [b] is left out. *)
Definition in_range (a : Z) (b : option Z) (k : positive) : Prop :=
  a ≤ Z.pos k ∧ match b with Some b' => Z.pos k ≤ b' | None => True end.

(** [found] are exactly the records of [rows] with a key in the range, in
    ascending order of the keys. *)
Definition selects {V} (a : Z) (b : option Z) (rows found : list (positive * V)) : Prop :=
  ascending found.*1 ∧ ∀ kv, kv ∈ found ↔ kv ∈ rows ∧ in_range a b kv.1.

(** A range query over [rows] returned the values of exactly the records
    in the range, in ascending order of the keys. *)
Definition range_result {V} (a : Z) (b : option Z) (rows : list (positive * V))
    (r : result (list V)) : Prop :=
  ∃ found, r = Ok found.*2 ∧ selects a b rows found.

(** The scan a cursor loop performs with a callback that acts on the
    caller's own state [U] and may throw: [callback(cursor.value.data)] is
    run on each record in turn, and an exception leaves the loop at once.
    The callback's effect on [U] up to the throw is kept. *)
Definition callback (T U : Type) : Type := T → U → U * option string.

Fixpoint cursor_loop {T Time U} (cb : callback T U)
    (cursor : list (positive * Transaction T Time)) (u : U) : U * result unit :=
  match cursor with
  | [] => (u, Ok ())
  | (_, txn) :: rest =>
      match cb (txn_data txn) u with
      | (u', Some e) => (u', Err (Thrown e))
      | (u', None) => cursor_loop cb rest u'
      end
  end.

(** A callback instrumented to note the argument of each invocation. *)
Definition traced {T U} (cb : callback T U) : callback T (U * list T) :=
  λ d s, let '(u', e) := cb d s.1 in ((u', s.2 ++ [d]), e).

(** The callback that only collects what it is given. *)
Definition collect {T} : callback T (list T) := λ d seen, (seen ++ [d], None).

(** What a scan of the data [ds] with [cb] can end in: [seen] are the
    arguments of the invocations made, [r] is what the caller gets. Either
    every item was passed once, in order; or the invocation on some item
    threw, that exception is the result, and nothing after the item was
    passed. *)
Definition scan_outcome {T U} (cb : callback T U) (ds seen : list T)
    (r : result unit) : Prop :=
  match r with
  | Ok _ => seen = ds
  | Err x => ∃ e before d after u,
      x = Thrown e ∧ ds = before ++ d :: after ∧ seen = before ++ [d] ∧
      (cb d u).2 = Some e
  end.

(** A scan of the data [ds] as the contract of [replay] words it: the
    callback is invoked on each item in turn; on the first invocation
    that throws, the scan ends there and the exception is its result;
    when none throws, every item has been passed and the scan returns.
    The third argument is the caller's state at the start, the fourth
    that state at the end with the result. *)
Inductive scans {T U} (cb : callback T U) : list T → U → U * result unit → Prop :=
  | scans_end u :
      scans cb [] u (u, Ok ())
  | scans_throw d ds u u' e :
      cb d u = (u', Some e) →
      scans cb (d :: ds) u (u', Err (Thrown e))
  | scans_next d ds u u' r :
      cb d u = (u', None) →
      scans cb ds u' r →
      scans cb (d :: ds) u r.

(** The callback that notes what it is given and throws [e] on the items
    that satisfy [p]. *)
Definition stop_at {T} (p : T → bool) (e : string) : callback T (list T) :=
  λ d seen, (seen ++ [d], if p d then Some e else None).

(** The items up to the first that satisfies [p], that one included. *)
Fixpoint through {T} (p : T → bool) (ds : list T) : list T :=
  match ds with
  | [] => []
  | d :: ds' => d :: if p d then [] else through p ds'
  end.

(** A database connection ([IDBPDatabase]) is known by the name of the
    database it was opened on. *)
Abbreviation IDBPDatabase := string (only parsing).

(** The state of a transaction when the [catch] block reaches it. *)
Inductive tx_state : Type :=
  | Active      (* requests can still be placed; [abort()] rolls back *)
  | Finished.   (* committed or aborted *)

(** [IDBTransaction.abort()] throws an [InvalidStateError] when the
    transaction is committing or has finished. *)
Definition abort (st : tx_state) : result unit :=
  match st with
  | Active => Ok ()
  | Finished => Err (DOMException InvalidStateError)
  end.

(** ** The batched log: [IDBBatchedTransactionLog] *)

Module Batched.
Section Batched.
Context {T Time : Type}.

(** [BatchedTransactionLogDBSchema<T>]: the object stores "commit" and
    "txn". *)
Record Database : Type := mkDatabase {
  commit_store : ObjectStore (Commit Time);
  txn_store : ObjectStore (Transaction T Time)
}.

(** The databases that exist, by name. *)
Definition World : Type := gmap string Database.

(** The [upgrade] callback of [open] on a database that does not exist
    yet: both object stores are created. *)
Definition upgrade : Database := mkDatabase createObjectStore createObjectStore.

(** [openDB(name, 1, {upgrade})]: an existing database is left as it is,
    a new one is created by [upgrade]. *)
Definition openDB (name : string) (w : World) : World * IDBPDatabase :=
  match w !! name with
  | Some _ => (w, name)
  | None => (<[name := upgrade]> w, name)
  end.

(** [deleteDB(name)]. *)
Definition deleteDB (name : string) (w : World) : World := delete name w.

(** The object stores a connection reaches. A name without a database
    reads as the database [open] would create for it. *)
Definition database (conn : IDBPDatabase) (w : World) : Database :=
  default upgrade (w !! conn).

(** The fields of the object; [db] is [None] for [null]. *)
Record Log : Type := mkLog {
  dbName : string;
  buffer : list (Transaction T Time);
  db : option IDBPDatabase
}.

Definition set_buffer (b : list (Transaction T Time)) (this : Log) : Log :=
  mkLog (dbName this) b (db this).
Definition set_db (c : option IDBPDatabase) (this : Log) : Log :=
  mkLog (dbName this) (buffer this) c.

Definition State : Type := World * Log.

Definition constructor (name : string) : result Log :=
  if String.eqb name EmptyString then Err (Error DB_NAME_MUST_BE_SET)
  else Ok (mkLog name [] None).

Definition isOpen (st : State) : bool :=
  match db st.2 with Some _ => true | None => false end.

Definition open (st : State) : State * result unit :=
  let '(w, this) := st in
  match db this with
  | Some _ => (st, Err (Error LOG_ALREADY_OPEN_MESSAGE))
  | None =>
      let '(w', conn) := openDB (dbName this) w in
      ((w', set_db (Some conn) this), Ok ())
  end.

Definition close (st : State) : State * result unit :=
  let '(w, this) := st in
  match db this with
  | None => (st, Err (Error LOG_ALREADY_CLOSED_MESSAGE))
  | Some _ => ((w, set_db None this), Ok ())
  end.

Definition clear (st : State) : State * result unit :=
  let '(w, this) := st in
  match db this with
  | Some _ => (st, Err (Error LOG_OPEN_CANNOT_CLEAR_MESSAGE))
  | None => ((deleteDB (dbName this) w, this), Ok ())
  end.

Definition countCommits (st : State) : result Z :=
  let '(w, this) := st in
  match db this with
  | None => Err (Error LOG_CLOSED_MESSAGE)
  | Some conn => Ok (count (commit_store (database conn w)))
  end.

Definition countTransactions (st : State) : result Z :=
  let '(w, this) := st in
  match db this with
  | None => Err (Error LOG_CLOSED_MESSAGE)
  | Some conn => Ok (count (txn_store (database conn w)))
  end.

(** [append(data)]; [now] is the reading of [performance.now()]. *)
Definition append (now : Time) (data : T) (st : State) : State * result unit :=
  let '(w, this) := st in
  match db this with
  | None => (st, Err (Error LOG_CLOSED_MESSAGE))
  | Some _ =>
      let txn := mkTransaction None now data in
      ((w, set_buffer (buffer this ++ [txn]) this), Ok ())
  end.

(** Where the store fails during [commit], if it does. A request fails
    either on its own, its error event reaching the promise while the
    transaction is still active, or because the store has aborted the
    transaction, which has finished when the promise rejects. *)
Inductive fault : Type :=
  | NoFault
  | TransactionThrows        (* [this.db.transaction(...)] throws *)
  | TxnAddFails (i : nat)    (* the request of [txnStore.add(buffer[i])] fails *)
  | CommitAddFails           (* the request of [commitStore.add(commit)] fails *)
  | DoneRejects              (* the store aborts the transaction on commit:
                                [tx.done] rejects *)
  | TxnAddAborted (i : nat)  (* the store aborts the transaction while the
                                request of [txnStore.add(buffer[i])] is
                                pending *)
  | CommitAddAborted.        (* the store aborts the transaction while the
                                request of [commitStore.add(commit)] is
                                pending *)

Definition txn_add_fails (f : fault) (n : nat) : bool :=
  match f with
  | TxnAddFails i | TxnAddAborted i => bool_decide (i < n)%nat
  | _ => false
  end.

Definition commit_add_fails (f : fault) : bool :=
  match f with CommitAddFails | CommitAddAborted => true | _ => false end.

Definition done_rejects (f : fault) : bool :=
  match f with DoneRejects => true | _ => false end.

(** The state of the transaction when the promise of a failed request
    rejects. *)
Definition state_after_failure (f : fault) : tx_state :=
  match f with
  | TxnAddAborted _ | CommitAddAborted => Finished
  | _ => Active
  end.

(** The locals of [commit] after the [try] block, and whether the block
    left by an exception. *)
Record try_block : Type := mkTry {
  try_world : World;
  tx : option tx_state;            (* [None] for [undefined] *)
  commitId : option positive;      (* [None] for [undefined] *)
  caught : bool
}.

(** The [try] block of [commit]. The writes go to a copy of the
    database, which replaces the database when [tx.done] resolves. A
    request that fails on its own rejects its promise from its error
    event, while the transaction is still active; a request that fails
    because the store has aborted the transaction, and [tx.done]
    rejecting after every request has succeeded, leave the [try] block
    with the transaction finished. *)
Definition commit_try (f : fault) (now : Time) (conn : IDBPDatabase)
    (buf : list (Transaction T Time)) (w : World) : try_block :=
  match f with
  | TransactionThrows => mkTry w None None true
  | _ =>
      let commitStore := commit_store (database conn w) in
      let txnStore := txn_store (database conn w) in
      if txn_add_fails f (length buf)
      then mkTry w (Some (state_after_failure f)) None true
      else
        let '(transactionIds, txnStore') := add_all buf txnStore in
        let commit := mkCommit None now transactionIds in
        if commit_add_fails f
        then mkTry w (Some (state_after_failure f)) None true
        else
          let '(k, commitStore') := add commit commitStore in
          if done_rejects f then mkTry w (Some Finished) (Some k) true
          else mkTry (<[conn := mkDatabase commitStore' txnStore']> w)
                     (Some Finished) (Some k) false
  end.

(** [tx?.abort()] in the [catch] block. *)
Definition commit_catch (t : try_block) : result unit :=
  if caught t then
    match tx t with
    | Some st => abort st
    | None => Ok ()
    end
  else Ok ().

(** [commit()]; [now] is the reading of [performance.now()] for the
    commit record. *)
Definition commit (f : fault) (now : Time) (st : State) : State * result unit :=
  let '(w, this) := st in
  match db this with
  | None => (st, Err (Error LOG_CLOSED_MESSAGE))
  | Some conn =>
      let t := commit_try f now conn (buffer this) w in
      match commit_catch t with
      | Err e => ((try_world t, this), Err e)
      | Ok _ =>
          if negb (truthy (Z.pos <$> commitId t))
          then ((try_world t, this), Err (Error FAILED_TO_COMMIT_TRANSACTIONS_MESSAGE))
          else ((try_world t, set_buffer [] this), Ok ())
      end
  end.

Definition replay {U} (cb : callback T U) (u : U) (st : State) : U * result unit :=
  let '(w, this) := st in
  match db this with
  | None => (u, Err (Error LOG_CLOSED_MESSAGE))
  | Some conn => cursor_loop cb (openCursor None (txn_store (database conn w))) u
  end.

(** The range both range queries build from their arguments. *)
Definition key_range (startId : Z) (finishId : option Z) : result IDBKeyRange :=
  if truthy finishId
  then IDBKeyRange_bound startId (default 0 finishId)
  else Ok (lowerBound startId).

(** [await this.db.get("txn", transactionId)] and the test that
    follows it. *)
Definition resolve (d : Database) (transactionId : positive)
  : result (Transaction T Time) :=
  match get transactionId (txn_store d) with
  | None => Err (Error TRANSACTION_NOT_FOUND)
  | Some transaction => Ok transaction
  end.

Definition getSeqRangeCommits (startId : Z) (finishId : option Z) (st : State)
  : result (list (CommitInfo T Time)) :=
  let '(w, this) := st in
  match db this with
  | None => Err (Error LOG_CLOSED_MESSAGE)
  | Some conn =>
      if startId <? 1 then Err (Error INVALID_SEQUENCE_ID_MESSAGE)
      else
        range ← key_range startId finishId;
        let commits := openCursor (Some range) (commit_store (database conn w)) in
        for_each (λ '(commitId, commit),
          transactions ← for_each (resolve (database conn w)) (commit_transactions commit);
          Ok (mkCommitInfo commitId (commit_time commit) transactions)) commits
  end.

Definition getSeqRangeTransactions (startId : Z) (finishId : option Z) (st : State)
  : result (list (Transaction T Time)) :=
  let '(w, this) := st in
  match db this with
  | None => Err (Error LOG_CLOSED_MESSAGE)
  | Some conn =>
      range ← key_range startId finishId;
      Ok (openCursor (Some range) (txn_store (database conn w))).*2
  end.

(** Calls that change the state, for histories of a log. *)
Inductive op : Type :=
  | DoOpen
  | DoClose
  | DoClear
  | DoAppend (now : Time) (data : T)
  | DoCommit (f : fault) (now : Time).

Definition step (o : op) (st : State) : State * result unit :=
  match o with
  | DoOpen => open st
  | DoClose => close st
  | DoClear => clear st
  | DoAppend now data => append now data st
  | DoCommit f now => commit f now st
  end.

(** The state after a history; a call that throws leaves the state as
    the method left it, and the history goes on. *)
Definition run (ops : list op) (st : State) : State :=
  foldl (λ st o, (step o st).1) st ops.

(** *** Vocabulary of the statements *)

(** Whether [f] stops a commit of [n] buffered transactions. *)
Definition fault_occurs (f : fault) (n : nat) : bool :=
  match f with
  | NoFault => false
  | TxnAddFails i | TxnAddAborted i => bool_decide (i < n)%nat
  | _ => true
  end.

(** Whether, with [f], the store has aborted the transaction by the time
    the [catch] block runs. *)
Definition aborted_by_store (f : fault) : bool :=
  match f with
  | DoneRejects | TxnAddAborted _ | CommitAddAborted => true
  | _ => false
  end.

(** The stored transactions of the database called [name]. *)
Definition stored (name : string) (w : World) : list (positive * Transaction T Time) :=
  records (txn_store (database name w)).

(** The data the calls of [append] in a history were given, in the
    order of the calls; a call on a closed log throws and appends
    nothing. [opened] says whether the log is open at the start. *)
Fixpoint appended (opened : bool) (ops : list op) : list T :=
  match ops with
  | [] => []
  | DoOpen :: ops' => appended true ops'
  | DoClose :: ops' => appended false ops'
  | DoAppend _ data :: ops' =>
      if opened then data :: appended opened ops' else appended opened ops'
  | _ :: ops' => appended opened ops'
  end.

Definition is_clear (o : op) : bool :=
  match o with DoClear => true | _ => false end.

(** The log as a caller keeps account of it: whether it is open, the
    data appended and not yet committed, and the data committed, both in
    the order of the calls of [append]. A call of [append] on an open log
    adds to the first list; a [commit] on an open log that the store does
    not fail moves the first list to the end of the second; [clear] on a
    closed log empties the second; every other call, and every call that
    throws, changes neither list. *)
Definition ledger : Type := bool * list T * list T.

Definition ledger_step (o : op) (l : ledger) : ledger :=
  let '(opened, pending, stored) := l in
  match o with
  | DoOpen => (true, pending, stored)
  | DoClose => (false, pending, stored)
  | DoClear => (opened, pending, if opened then stored else [])
  | DoAppend _ data => (opened, if opened then pending ++ [data] else pending, stored)
  | DoCommit f _ =>
      if opened && negb (fault_occurs f (length pending))
      then (opened, [], stored ++ pending)
      else l
  end.

Definition ledger_run (ops : list op) (l : ledger) : ledger :=
  foldl (λ l o, ledger_step o l) l ops.

(** The database a commit installs when the store does not fail. *)
Definition committed (now : Time) (buf : list (Transaction T Time))
    (d : Database) : Database :=
  mkDatabase
    (add (mkCommit None now (add_all buf (txn_store d)).1) (commit_store d)).2
    (add_all buf (txn_store d)).2.

(** An open log is connected to the database of its own name. *)
Definition log_ok (this : Log) : Prop :=
  ∀ conn, db this = Some conn → conn = dbName this.

Definition persisted_data (name : string) (w : World) : list T :=
  txn_data <$> (stored name w).*2.

Definition buffered_data (this : Log) : list T :=
  txn_data <$> buffer this.

(** The reading of [close] under which the buffer is discarded: the
    buffer is empty once [close] has returned, and an [open] and a
    [commit] after it store no transaction. *)
Definition close_discards_buffer (now : Time) (st : State) : Prop :=
  let closed := (close st).1 in
  let committed := (commit NoFault now (open closed).1).1 in
  buffer closed.2 = [] ∧
  countTransactions committed = countTransactions st.

(** [info] is the commit record [kc] with each id of its list replaced,
    in place, by the transaction stored under that id. *)
Definition resolved (d : Database) (kc : positive * Commit Time)
    (info : CommitInfo T Time) : Prop :=
  info_id info = kc.1 ∧
  info_time info = commit_time kc.2 ∧
  Forall2 (λ transactionId t, (transactionId, t) ∈ records (txn_store d))
    (commit_transactions kc.2) (info_transactions info).

(** Every id the commit records [found] refer to is the key of a stored
    transaction. *)
Definition resolvable (d : Database) (found : list (positive * Commit Time)) : Prop :=
  Forall (λ kc, Forall (λ transactionId, transactionId ∈ (records (txn_store d)).*1)
                  (commit_transactions kc.2)) found.

(** What [getSeqRangeCommits] is to give on the database [d]: for the
    commits in the range, in ascending order of their ids, one
    [CommitInfo] each with the transactions resolved; and the
    transaction-not-found error instead when some id does not
    resolve. *)
Definition commits_result (a : Z) (b : option Z) (d : Database)
    (r : result (list (CommitInfo T Time))) : Prop :=
  ∃ found, selects a b (records (commit_store d)) found ∧
    (resolvable d found → ∃ infos, r = Ok infos ∧ Forall2 (resolved d) found infos) ∧
    (¬ resolvable d found → r = Err (Error TRANSACTION_NOT_FOUND)).

(** Both stores of a database are as the store maintains them. *)
Definition database_ok (d : Database) : Prop :=
  store_ok (commit_store d) ∧ store_ok (txn_store d).
End Batched.
Global Arguments Database : clear implicits.
Global Arguments World : clear implicits.
Global Arguments Log : clear implicits.
Global Arguments State : clear implicits.
Global Arguments op : clear implicits.
End Batched.

(** ** The simple log: [IDBSimpleTransactionLog] *)

Module Simple.
Section Simple.
Context {T Time : Type}.

(** [SimpleTransactionLogDBSchema<T>]: the object store "simpletxn". *)
Record Database : Type := mkDatabase {
  simpletxn : ObjectStore (Transaction T Time)
}.

Definition World : Type := gmap string Database.

Definition upgrade : Database := mkDatabase createObjectStore.

Definition openDB (name : string) (w : World) : World * IDBPDatabase :=
  match w !! name with
  | Some _ => (w, name)
  | None => (<[name := upgrade]> w, name)
  end.

Definition deleteDB (name : string) (w : World) : World := delete name w.

Definition database (conn : IDBPDatabase) (w : World) : Database :=
  default upgrade (w !! conn).

Record Log : Type := mkLog {
  dbName : string;
  db : option IDBPDatabase
}.

Definition set_db (c : option IDBPDatabase) (this : Log) : Log :=
  mkLog (dbName this) c.

Definition State : Type := World * Log.

Definition constructor (name : string) : result Log :=
  if String.eqb name EmptyString then Err (Error DB_NAME_MUST_BE_SET)
  else Ok (mkLog name None).

Definition isOpen (st : State) : bool :=
  match db st.2 with Some _ => true | None => false end.

Definition open (st : State) : State * result unit :=
  let '(w, this) := st in
  match db this with
  | Some _ => (st, Err (Error LOG_ALREADY_OPEN_MESSAGE))
  | None =>
      let '(w', conn) := openDB (dbName this) w in
      ((w', set_db (Some conn) this), Ok ())
  end.

Definition close (st : State) : State * result unit :=
  let '(w, this) := st in
  match db this with
  | None => (st, Err (Error LOG_ALREADY_CLOSED_MESSAGE))
  | Some _ => ((w, set_db None this), Ok ())
  end.

Definition clear (st : State) : State * result unit :=
  let '(w, this) := st in
  match db this with
  | Some _ => (st, Err (Error LOG_OPEN_CANNOT_CLEAR_MESSAGE))
  | None => ((deleteDB (dbName this) w, this), Ok ())
  end.

Definition countTransactions (st : State) : result Z :=
  let '(w, this) := st in
  match db this with
  | None => Err (Error LOG_CLOSED_MESSAGE)
  | Some conn => Ok (count (simpletxn (database conn w)))
  end.

(** [append(data)]: one transaction of the store per call. [failure] is
    the exception of the store when the write does not complete (the
    request fails or the transaction aborts); nothing is stored then and
    the exception reaches the caller. *)
Definition append (failure : option dom_name) (now : Time) (data : T) (st : State)
  : State * result unit :=
  let '(w, this) := st in
  match db this with
  | None => (st, Err (Error LOG_CLOSED_MESSAGE))
  | Some conn =>
      let txn := mkTransaction None now data in
      match failure with
      | Some e => (st, Err (DOMException e))
      | None =>
          let '(_, store') := add txn (simpletxn (database conn w)) in
          ((<[conn := mkDatabase store']> w, this), Ok ())
      end
  end.

Definition replay {U} (cb : callback T U) (u : U) (st : State) : U * result unit :=
  let '(w, this) := st in
  match db this with
  | None => (u, Err (Error LOG_CLOSED_MESSAGE))
  | Some conn => cursor_loop cb (openCursor None (simpletxn (database conn w))) u
  end.

Definition key_range (startId : Z) (finishId : option Z) : result IDBKeyRange :=
  if truthy finishId
  then IDBKeyRange_bound startId (default 0 finishId)
  else Ok (lowerBound startId).

Definition getSeqRangeTransactions (startId : Z) (finishId : option Z) (st : State)
  : result (list (Transaction T Time)) :=
  let '(w, this) := st in
  match db this with
  | None => Err (Error LOG_CLOSED_MESSAGE)
  | Some conn =>
      range ← key_range startId finishId;
      Ok (openCursor (Some range) (simpletxn (database conn w))).*2
  end.

Inductive op : Type :=
  | DoOpen
  | DoClose
  | DoClear
  | DoAppend (failure : option dom_name) (now : Time) (data : T).

Definition step (o : op) (st : State) : State * result unit :=
  match o with
  | DoOpen => open st
  | DoClose => close st
  | DoClear => clear st
  | DoAppend failure now data => append failure now data st
  end.

Definition run (ops : list op) (st : State) : State :=
  foldl (λ st o, (step o st).1) st ops.

(** *** Vocabulary of the statements *)

Definition stored (name : string) (w : World) : list (positive * Transaction T Time) :=
  records (simpletxn (database name w)).

(** The data of the calls of [append] that completed, in the order of
    the calls. *)
Fixpoint appended (opened : bool) (ops : list op) : list T :=
  match ops with
  | [] => []
  | DoOpen :: ops' => appended true ops'
  | DoClose :: ops' => appended false ops'
  | DoAppend None _ data :: ops' =>
      if opened then data :: appended opened ops' else appended opened ops'
  | _ :: ops' => appended opened ops'
  end.

Definition is_clear (o : op) : bool :=
  match o with DoClear => true | _ => false end.

Definition log_ok (this : Log) : Prop :=
  ∀ conn, db this = Some conn → conn = dbName this.

Definition persisted_data (name : string) (w : World) : list T :=
  txn_data <$> (stored name w).*2.
End Simple.
Global Arguments Database : clear implicits.
Global Arguments World : clear implicits.
Global Arguments Log : clear implicits.
Global Arguments State : clear implicits.
Global Arguments op : clear implicits.
End Simple.

(** ** The optional callbacks *)

(** A member of the [callbacks] object given to the constructor: absent,
    or a function that acts on the caller's own state [U] and may throw.
    The callbacks modelled do not call the methods of the log they are
    given to. *)
Definition hook (U : Type) : Type := option (U → U * option string).

(** [this.callbacks.on...?.apply(this, ...)]: an absent callback is
    skipped. *)
Definition call_hook {U} (h : hook U) (u : U) : U * result unit :=
  match h with
  | None => (u, Ok ())
  | Some f =>
      match f u with
      | (u', Some e) => (u', Err (Thrown e))
      | (u', None) => (u', Ok ())
      end
  end.

(** What the caller is to see of a callback a method has reached, in
    the words of the interface: an absent callback changes nothing and
    the method returns; a callback given is run once on the caller's
    state, its effect is kept, and what it throws is what the method
    throws. *)
Inductive hook_outcome {U} : hook U → U → U → result unit → Prop :=
  | hook_absent u : hook_outcome None u u (Ok ())
  | hook_returns f u u' : f u = (u', None) → hook_outcome (Some f) u u' (Ok ())
  | hook_throws f u u' e :
      f u = (u', Some e) → hook_outcome (Some f) u u' (Err (Thrown e)).

(** A method whose last statement is the call of its callback: the
    callback runs when the statements before it have not thrown. *)
Definition then_hook {S U} (method : S → S * result unit) (h : hook U)
    (st : S) (u : U) : S * U * result unit :=
  match method st with
  | (st', Ok _) => let '(u', r) := call_hook h u in (st', u', r)
  | (st', Err e) => (st', u, Err e)
  end.

(** [BatchedTransactionLogCallbacks<T>] and
    [SimpleTransactionLogCallbacks<T>] have the same four members. *)
Record Callbacks (T U : Type) : Type := mkCallbacks {
  onopen : hook U;
  onclose : hook U;
  onclear : hook U;
  onappend : option (T → U → U * option string)
}.
Arguments mkCallbacks {T U}.
Arguments onopen {T U}.
Arguments onclose {T U}.
Arguments onclear {T U}.
Arguments onappend {T U}.

(** [callbacks || {}]. *)
Definition no_callbacks {T U} : Callbacks T U := mkCallbacks None None None None.

(** [this.callbacks.onappend?.apply(this, [data])]. *)
Definition onappend_with {T U} (cbs : Callbacks T U) (data : T) : hook U :=
  (λ f, f data) <$> onappend cbs.

(** The methods of the batched log that end in a callback. [commit] has
    none. *)
Module BatchedHooks.
Section BatchedHooks.
Context {T Time U : Type} (cbs : Callbacks T U).

Definition open := then_hook (Batched.open (T:=T) (Time:=Time)) (onopen cbs).
Definition close := then_hook (Batched.close (T:=T) (Time:=Time)) (onclose cbs).
Definition clear := then_hook (Batched.clear (T:=T) (Time:=Time)) (onclear cbs).
Definition append (now : Time) (data : T) :=
  then_hook (Batched.append now data) (onappend_with cbs data).
End BatchedHooks.
End BatchedHooks.

(** The methods of the simple log that end in a callback. *)
Module SimpleHooks.
Section SimpleHooks.
Context {T Time U : Type} (cbs : Callbacks T U).

Definition open := then_hook (Simple.open (T:=T) (Time:=Time)) (onopen cbs).
Definition close := then_hook (Simple.close (T:=T) (Time:=Time)) (onclose cbs).
Definition clear := then_hook (Simple.clear (T:=T) (Time:=Time)) (onclear cbs).
Definition append (failure : option dom_name) (now : Time) (data : T) :=
  then_hook (Simple.append failure now data) (onappend_with cbs data).
End SimpleHooks.
End SimpleHooks.

(** ** Vocabulary of the statements about histories *)

(** The keys of a store are 1, 2, ... without a gap, and the generator
    stands at the next number. *)
Definition gapless {V} (s : ObjectStore V) : Prop :=
  (records s).*1 = Pos.of_nat <$> seq 1 (length (records s)) ∧
  Pos.to_nat (keygen s) = S (length (records s)).

(** The lists of the stored commits, one after the other, are the ids of
    the stored transactions: each transaction is listed once, by one
    commit, and in the order of the ids. *)
Definition partitioned {T Time} (d : Batched.Database T Time) : Prop :=
  concat (commit_transactions <$> (records (Batched.commit_store d)).*2) =
  (records (Batched.txn_store d)).*1.

(** What the batched log keeps of the database of its name. *)
Record batched_invariant {T Time} (d : Batched.Database T Time) : Prop := {
  batched_stores_ok : Batched.database_ok d;
  batched_commits_gapless : gapless (Batched.commit_store d);
  batched_txns_gapless : gapless (Batched.txn_store d);
  batched_partitioned : partitioned d
}.

(** What the simple log keeps of the database of its name. *)
Record simple_invariant {T Time} (d : Simple.Database T Time) : Prop := {
  simple_store_ok : store_ok (Simple.simpletxn d);
  simple_gapless : gapless (Simple.simpletxn d)
}.

(** The time and data of a transaction, which the store does not
    change. *)
Definition payload {T Time} (t : Transaction T Time) : Time * T :=
  (txn_time t, txn_data t).

(** * Properties *)

(** Settles [store_ok] of a store that is written out. *)
Ltac solve_store_ok :=
  split; simpl; unfold ascending; repeat (constructor; simpl; try lia; try done).

(** ** Object stores *)

Section ObjectStoreFacts.
Context {V : Type} `{!KeyPath V}.
Hypothesis keyPath_inject : ∀ k (v : V), keyPath (inject k v) = Some k.

Lemma store_ok_createObjectStore : store_ok (createObjectStore (V:=V)).
Proof. split; simpl; constructor. Qed.

Lemma store_ok_add (v : V) (s : ObjectStore V) :
  store_ok s → store_ok (add v s).2.
Proof using keyPath_inject.
  intros [Hasc Hgen Hin]. split; simpl.
  - unfold ascending in *. rewrite fmap_app. apply StronglySorted_app_2.
    + intros k1 k2 Hk1 Hk2. apply list_elem_of_singleton in Hk2 as ->.
      rewrite Forall_forall in Hgen. by apply Hgen.
    + done.
    + repeat constructor.
  - rewrite fmap_app. apply Forall_app. split.
    + eapply Forall_impl; [exact Hgen|]. intros k Hk. simpl in Hk. lia.
    + repeat constructor. simpl. lia.
  - apply Forall_app. split; [done|]. repeat constructor. simpl.
    apply keyPath_inject.
Qed.

Lemma add_all_cons v (vs : list V) (s : ObjectStore V) :
  add_all (v :: vs) s =
  (keygen s :: (add_all vs (add v s).2).1, (add_all vs (add v s).2).2).
Proof. simpl. by destruct (add_all vs _). Qed.

Lemma add_all_eq (vs : list V) (s : ObjectStore V) :
  (add_all vs s).1 = (stamp (keygen s) vs).*1 ∧
  records (add_all vs s).2 = records s ++ stamp (keygen s) vs.
Proof.
  revert s. induction vs as [|v vs IH]; intros s.
  - simpl. by rewrite app_nil_r.
  - rewrite add_all_cons. destruct (IH (add v s).2) as [IH1 IH2].
    cbn [fst snd stamp fmap list_fmap]. split.
    + by rewrite IH1.
    + rewrite IH2. simpl. by rewrite <- app_assoc.
Qed.

Lemma store_ok_add_all (vs : list V) (s : ObjectStore V) :
  store_ok s → store_ok (add_all vs s).2.
Proof using keyPath_inject.
  revert s. induction vs as [|v vs IH]; intros s Hs; [done|].
  rewrite add_all_cons. apply IH, store_ok_add, Hs.
Qed.

Lemma length_stamp k (vs : list V) : length (stamp k vs) = length vs.
Proof. revert k. induction vs; intros; simpl; auto. Qed.

Lemma elem_of_openCursor r (s : ObjectStore V) kv :
  kv ∈ openCursor (Some r) s ↔ kv ∈ records s ∧ includes r kv.1 = true.
Proof. unfold openCursor. rewrite list_elem_of_filter. tauto. Qed.

Lemma ascending_sublist (ks1 ks2 : list positive) :
  ks1 `sublist_of` ks2 → ascending ks2 → ascending ks1.
Proof.
  unfold ascending. induction 1 as [|k l1 l2 Hsub IH|k l1 l2 Hsub IH];
    intros Hs.
  - constructor.
  - apply StronglySorted_cons in Hs as [Hall Hs].
    apply StronglySorted_cons. split; [|auto].
    rewrite Forall_forall in *. intros x Hx. apply Hall.
    eapply elem_of_sublist; eauto.
  - apply StronglySorted_cons in Hs as [_ Hs]. auto.
Qed.

Lemma openCursor_ascending r (s : ObjectStore V) :
  store_ok s → ascending (openCursor r s).*1.
Proof.
  intros [Hasc _ _]. destruct r as [r|]; simpl; [|done].
  eapply ascending_sublist; [|exact Hasc].
  apply fmap_sublist, sublist_filter.
Qed.

Lemma get_record_Some k (rs : list (positive * V)) v :
  get_record k rs = Some v → (k, v) ∈ rs.
Proof.
  induction rs as [|[k' v'] rs IH]; simpl; [done|].
  destruct (Pos.eqb_spec k k') as [->|Hne].
  - intros [= ->]. left.
  - intros H. right. auto.
Qed.

Lemma get_record_None k (rs : list (positive * V)) :
  get_record k rs = None ↔ k ∉ rs.*1.
Proof.
  induction rs as [|[k' v'] rs IH]; simpl.
  - split; [intros _; apply not_elem_of_nil|done].
  - rewrite not_elem_of_cons. destruct (Pos.eqb_spec k k') as [->|Hne].
    + split; [done|]. intros [? _]. done.
    + rewrite IH. tauto.
Qed.

Lemma get_record_elem_of k (rs : list (positive * V)) v :
  ascending rs.*1 → (k, v) ∈ rs → get_record k rs = Some v.
Proof.
  unfold ascending. induction rs as [|[k' v'] rs IH]; simpl; intros Hs Hin.
  - by apply elem_of_nil in Hin.
  - apply StronglySorted_cons in Hs as [Hall Hs].
    apply elem_of_cons in Hin as [[= -> ->]|Hin].
    + by rewrite Pos.eqb_refl.
    + destruct (Pos.eqb_spec k k') as [->|Hne]; [|auto].
      rewrite Forall_forall in Hall.
      assert (k' < k')%positive; [|lia].
      apply Hall. apply list_elem_of_fmap. by exists (k', v).
Qed.

Lemma count_add_all (vs : list V) (s : ObjectStore V) :
  count (add_all vs s).2 = count s + Z.of_nat (length vs).
Proof.
  unfold count. destruct (add_all_eq vs s) as [_ ->].
  rewrite length_app, length_stamp. lia.
Qed.
End ObjectStoreFacts.

Lemma Transaction_keyPath_inject {T Time} k (t : Transaction T Time) :
  keyPath (inject k t) = Some k.
Proof. done. Qed.

Lemma Commit_keyPath_inject {Time} k (c : Commit Time) :
  keyPath (inject k c) = Some k.
Proof. done. Qed.

Lemma stamp_data {T Time} k (ts : list (Transaction T Time)) :
  txn_data <$> (stamp k ts).*2 = txn_data <$> ts.
Proof. revert k. induction ts as [|t ts IH]; intros k; simpl; [done|]. by rewrite IH. Qed.

(** ** Cursor scans *)

Section CursorFacts.
Context {T Time U : Type}.
Implicit Types (cb : callback T U) (rows : list (positive * Transaction T Time)).

(** Noting the invocations does not change what the scan does. *)
Lemma cursor_loop_traced_erase cb rows u seen :
  ((cursor_loop (traced cb) rows (u, seen)).1.1,
   (cursor_loop (traced cb) rows (u, seen)).2) = cursor_loop cb rows u.
Proof.
  revert u seen. unfold traced.
  induction rows as [|[k t] rows IH]; intros u seen; [done|].
  simpl. destruct (cb (txn_data t) u) as [u' [e|]]; [done|]. apply IH.
Qed.

Lemma cursor_loop_traced cb rows u seen0 :
  ∃ seen, (cursor_loop (traced cb) rows (u, seen0)).1.2 = seen0 ++ seen ∧
    scan_outcome cb (txn_data <$> rows.*2) seen
      (cursor_loop (traced cb) rows (u, seen0)).2.
Proof.
  revert u seen0. unfold traced.
  induction rows as [|[k t] rows IH]; intros u seen0.
  - exists []. simpl. by rewrite app_nil_r.
  - cbn [cursor_loop fst snd]. rewrite !fmap_cons. cbn [fst snd].
    destruct (cb (txn_data t) u) as [u' [e|]] eqn:Hcb.
    + exists [txn_data t]. split; [done|]. cbn [snd scan_outcome].
      exists e, [], (txn_data t), (txn_data <$> rows.*2), u.
      by rewrite Hcb.
    + destruct (IH u' (seen0 ++ [txn_data t])) as (seen & Hseen & Hout).
      exists (txn_data t :: seen). split.
      * by rewrite Hseen, <- app_assoc.
      * destruct (cursor_loop _ rows (u', seen0 ++ [txn_data t])).2
          as [[]|x]; unfold scan_outcome in *.
        -- by rewrite Hout.
        -- destruct Hout as (e & pre & d & post & u1 & -> & Hds & -> & Hthrow).
           exists e, (txn_data t :: pre), d, post, u1.
           by rewrite Hds.
Qed.

Lemma cursor_loop_collect rows (seen : list T) :
  cursor_loop collect rows seen = (seen ++ (txn_data <$> rows.*2), Ok ()).
Proof.
  revert seen. induction rows as [|[k t] rows IH]; intros seen; simpl.
  - by rewrite app_nil_r.
  - rewrite IH. by rewrite <- app_assoc.
Qed.
End CursorFacts.

(** ** The batched log *)

Section BatchedFacts.
Context {T Time : Type}.
Implicit Types (w : Batched.World T Time) (this : Batched.Log T Time)
  (st : Batched.State T Time) (f : Batched.fault) (now : Time)
  (buf : list (Transaction T Time)) (d : Batched.Database T Time)
  (o : Batched.op T Time) (ops : list (Batched.op T Time)).

Lemma batched_database_insert conn d w :
  Batched.database conn (<[conn := d]> w) = d.
Proof. unfold Batched.database, Batched.World in *. by rewrite lookup_insert_eq. Qed.

Lemma batched_database_insert_ne conn conn' d w :
  conn ≠ conn' →
  Batched.database conn' (<[conn := d]> w) = Batched.database conn' w.
Proof.
  intros. unfold Batched.database, Batched.World in *.
  by rewrite lookup_insert_ne.
Qed.

Lemma batched_database_openDB name conn w :
  Batched.database conn (Batched.openDB name w).1 = Batched.database conn w.
Proof.
  unfold Batched.openDB. destruct (w !! name) eqn:E; [done|]. simpl.
  destruct (decide (name = conn)) as [->|Hne].
  - rewrite batched_database_insert. unfold Batched.database. by rewrite E.
  - by apply batched_database_insert_ne.
Qed.

Lemma batched_openDB_conn name w : (Batched.openDB name w).2 = name.
Proof. unfold Batched.openDB. by destruct (w !! name). Qed.

(** What [commit] does on an open log. With a failure of the store the
    state is as before and the call throws; the exception is the one of
    [abort()] when the store has aborted the transaction, and the commit
    failure message otherwise. Without a failure the new database is
    installed and the buffer emptied. *)
Lemma batched_commit_outcome f now w this conn :
  Batched.db this = Some conn →
  Batched.commit f now (w, this) =
    if Batched.fault_occurs f (length (Batched.buffer this)) then
      ((w, this),
       Err (if Batched.aborted_by_store f then DOMException InvalidStateError
            else Error FAILED_TO_COMMIT_TRANSACTIONS_MESSAGE))
    else
      ((<[conn := Batched.committed now (Batched.buffer this)
                    (Batched.database conn w)]> w,
        Batched.set_buffer [] this), Ok ()).
Proof.
  intros Hdb. unfold Batched.commit, Batched.committed. rewrite Hdb.
  unfold Batched.commit_try.
  destruct (add_all (Batched.buffer this) _) as [ids txnStore'].
  destruct f as [| |i| | |i|]; simpl; try done;
    by destruct (bool_decide (i < length (Batched.buffer this))%nat).
Qed.

Lemma batched_step_isOpen o st :
  Batched.isOpen (Batched.step o st).1 =
    match o with
    | Batched.DoOpen => true
    | Batched.DoClose => false
    | _ => Batched.isOpen st
    end.
Proof.
  destruct st as [w [name buf [conn|]]]; unfold Batched.isOpen;
    destruct o as [| | |now data|f now]; simpl; try done.
  - destruct (Batched.commit_catch _); simpl; [|done].
    by destruct (negb _).
  - by destruct (Batched.openDB _ w).
Qed.

Lemma batched_step_log_ok o st :
  Batched.log_ok st.2 →
  Batched.log_ok (Batched.step o st).1.2 ∧
  Batched.dbName (Batched.step o st).1.2 = Batched.dbName st.2.
Proof.
  destruct st as [w [name buf [conn|]]]; unfold Batched.log_ok; simpl;
    intros Hok; destruct o as [| | |now data|f now]; simpl; try done.
  - destruct (Batched.commit_catch _); simpl; [|done].
    by destruct (negb _).
  - pose proof (batched_openDB_conn name w) as Hc.
    destruct (Batched.openDB _ w) as [w' c]. simpl in *. subst c.
    split; [|done]. by intros ? [= <-].
Qed.

Lemma batched_appended_cons opened o ops :
  Batched.appended (T:=T) (Time:=Time) opened (o :: ops) =
  Batched.appended opened [o] ++
  Batched.appended
    (match o with
     | Batched.DoOpen => true
     | Batched.DoClose => false
     | _ => opened
     end) ops.
Proof. destruct o; simpl; try done. by destruct opened. Qed.

Lemma batched_committed_data now buf d :
  txn_data <$> (records (Batched.txn_store (Batched.committed now buf d))).*2 =
  (txn_data <$> (records (Batched.txn_store d)).*2) ++ (txn_data <$> buf).
Proof.
  unfold Batched.committed. simpl.
  destruct (add_all_eq buf (Batched.txn_store d)) as [_ ->].
  by rewrite !fmap_app, stamp_data.
Qed.

Lemma batched_committed_ok now buf d :
  Batched.database_ok d → Batched.database_ok (Batched.committed now buf d).
Proof.
  intros [Hc Ht]. unfold Batched.committed.
  split; cbn [Batched.commit_store Batched.txn_store].
  - by apply store_ok_add; [apply Commit_keyPath_inject|].
  - by apply store_ok_add_all; [apply Transaction_keyPath_inject|].
Qed.

(** One call, other than [clear], on a log connected under its own name:
    what is stored followed by what is buffered grows by the data
    appended, and the stores stay in order. *)
Lemma batched_step_data o st :
  Batched.is_clear o = false →
  Batched.log_ok st.2 →
  let name := Batched.dbName st.2 in
  let st' := (Batched.step o st).1 in
  Batched.persisted_data name st'.1 ++ Batched.buffered_data st'.2 =
    (Batched.persisted_data name st.1 ++ Batched.buffered_data st.2) ++
    Batched.appended (Batched.isOpen st) [o] ∧
  (Batched.database_ok (Batched.database name st.1) →
   Batched.database_ok (Batched.database name st'.1)).
Proof.
  destruct st as [w this]. intros Hclear Hok. cbn [fst snd] in *.
  unfold Batched.isOpen, Batched.persisted_data, Batched.stored,
    Batched.buffered_data. cbn [fst snd].
  destruct o as [| | |now data|f now]; try done; cbn [Batched.step].
  - destruct this as [name buf [conn|]]; simpl; [by rewrite app_nil_r|].
    pose proof (batched_database_openDB name name w) as Hd.
    destruct (Batched.openDB _ w) as [w' c]. simpl in *.
    by rewrite Hd, app_nil_r.
  - by destruct this as [name buf [conn|]]; simpl; rewrite app_nil_r.
  - destruct this as [name buf [conn|]]; simpl; [|by rewrite app_nil_r].
    by rewrite fmap_app, app_assoc.
  - destruct (Batched.db this) as [conn|] eqn:E.
    + rewrite (batched_commit_outcome f now w this conn E).
      rewrite <- (Hok conn E).
      destruct (Batched.fault_occurs f _); simpl; [by rewrite !app_nil_r|].
      rewrite batched_database_insert. split.
      * by rewrite batched_committed_data, !app_nil_r.
      * apply batched_committed_ok.
    + unfold Batched.commit. rewrite E. simpl. by rewrite app_nil_r.
Qed.

(** The same over a history without [clear]. *)
Lemma batched_run_data ops st :
  Forall (λ o, Batched.is_clear o = false) ops →
  Batched.log_ok st.2 →
  let name := Batched.dbName st.2 in
  let st' := Batched.run ops st in
  Batched.log_ok st'.2 ∧ Batched.dbName st'.2 = name ∧
  Batched.persisted_data name st'.1 ++ Batched.buffered_data st'.2 =
    (Batched.persisted_data name st.1 ++ Batched.buffered_data st.2) ++
    Batched.appended (Batched.isOpen st) ops ∧
  (Batched.database_ok (Batched.database name st.1) →
   Batched.database_ok (Batched.database name st'.1)).
Proof.
  intros Hops. revert st. induction Hops as [|o ops Ho Hops IH]; intros st Hok.
  - simpl. by rewrite app_nil_r.
  - cbn [Batched.run foldl]. fold (Batched.run ops (Batched.step o st).1).
    destruct (batched_step_log_ok o st Hok) as [Hok' Hname'].
    destruct (batched_step_data o st Ho Hok) as [Hdata' Hwf'].
    destruct (IH _ Hok') as (Hok'' & Hname'' & Hdata'' & Hwf'').
    rewrite Hname' in *. cbn zeta. split; [done|]. split; [done|]. split.
    + rewrite Hdata'', Hdata', (batched_appended_cons _ o ops).
      by rewrite batched_step_isOpen, <- !app_assoc.
    + auto.
Qed.
End BatchedFacts.

(** ** The simple log *)

Section SimpleFacts.
Context {T Time : Type}.
Implicit Types (w : Simple.World T Time) (this : Simple.Log)
  (st : Simple.State T Time) (now : Time)
  (d : Simple.Database T Time)
  (o : Simple.op T Time) (ops : list (Simple.op T Time)).

Lemma simple_database_insert conn d w :
  Simple.database conn (<[conn := d]> w) = d.
Proof. unfold Simple.database, Simple.World in *. by rewrite lookup_insert_eq. Qed.

Lemma simple_database_openDB name w :
  Simple.database name (Simple.openDB name w).1 = Simple.database name w.
Proof.
  unfold Simple.openDB. destruct (w !! name) eqn:E; [done|]. simpl.
  rewrite simple_database_insert. unfold Simple.database. by rewrite E.
Qed.

Lemma simple_openDB_conn name w : (Simple.openDB name w).2 = name.
Proof. unfold Simple.openDB. by destruct (w !! name). Qed.

Lemma simple_step_isOpen o st :
  Simple.isOpen (Simple.step o st).1 =
    match o with
    | Simple.DoOpen => true
    | Simple.DoClose => false
    | _ => Simple.isOpen st
    end.
Proof.
  destruct st as [w [name [conn|]]]; unfold Simple.isOpen;
    destruct o as [| | |[e|] now data]; simpl; try done.
  by destruct (Simple.openDB _ w).
Qed.

Lemma simple_step_log_ok o st :
  Simple.log_ok st.2 →
  Simple.log_ok (Simple.step o st).1.2 ∧
  Simple.dbName (Simple.step o st).1.2 = Simple.dbName st.2.
Proof.
  destruct st as [w [name [conn|]]]; unfold Simple.log_ok; simpl;
    intros Hok; destruct o as [| | |[e|] now data]; simpl; try done.
  pose proof (simple_openDB_conn name w) as Hc.
  destruct (Simple.openDB _ w) as [w' c]. simpl in *. subst c.
  split; [|done]. by intros ? [= <-].
Qed.

Lemma simple_appended_cons opened o ops :
  Simple.appended opened (o :: ops) =
  Simple.appended opened [o] ++
  Simple.appended
    (match o with
     | Simple.DoOpen => true
     | Simple.DoClose => false
     | _ => opened
     end) ops.
Proof. destruct o as [| | |[e|] now data]; simpl; try done. by destruct opened. Qed.

(** One call other than [clear]: what is stored grows by the data of a
    completed [append], and the store stays in order. *)
Lemma simple_step_data o st :
  Simple.is_clear o = false →
  Simple.log_ok st.2 →
  let name := Simple.dbName st.2 in
  let st' := (Simple.step o st).1 in
  Simple.persisted_data name st'.1 =
    Simple.persisted_data name st.1 ++ Simple.appended (Simple.isOpen st) [o] ∧
  (store_ok (Simple.simpletxn (Simple.database name st.1)) →
   store_ok (Simple.simpletxn (Simple.database name st'.1))).
Proof.
  destruct st as [w [name [conn|]]]; intros Hclear Hok; cbn [fst snd] in *;
    unfold Simple.isOpen, Simple.persisted_data, Simple.stored; cbn [fst snd];
    destruct o as [| | |[e|] now data]; try done; simpl;
    rewrite ?app_nil_r; try done.
  - pose proof (Hok conn eq_refl) as Hc. simpl in Hc. subst conn.
    rewrite simple_database_insert. simpl. split.
    + by rewrite !fmap_app.
    + intros Hs.
      apply (store_ok_add Transaction_keyPath_inject
               (mkTransaction None now data) _ Hs).
  - pose proof (simple_database_openDB name w) as Hd.
    destruct (Simple.openDB _ w) as [w' c]. simpl in *. by rewrite Hd.
Qed.

Lemma simple_run_data ops st :
  Forall (λ o, Simple.is_clear o = false) ops →
  Simple.log_ok st.2 →
  let name := Simple.dbName st.2 in
  let st' := Simple.run ops st in
  Simple.log_ok st'.2 ∧ Simple.dbName st'.2 = name ∧
  Simple.persisted_data name st'.1 =
    Simple.persisted_data name st.1 ++ Simple.appended (Simple.isOpen st) ops ∧
  (store_ok (Simple.simpletxn (Simple.database name st.1)) →
   store_ok (Simple.simpletxn (Simple.database name st'.1))).
Proof.
  intros Hops. revert st. induction Hops as [|o ops Ho Hops IH]; intros st Hok.
  - simpl. by rewrite app_nil_r.
  - cbn [Simple.run foldl]. fold (Simple.run ops (Simple.step o st).1).
    destruct (simple_step_log_ok o st Hok) as [Hok' Hname'].
    destruct (simple_step_data o st Ho Hok) as [Hdata' Hwf'].
    destruct (IH _ Hok') as (Hok'' & Hname'' & Hdata'' & Hwf'').
    rewrite Hname' in *. cbn zeta. split; [done|]. split; [done|]. split.
    + rewrite Hdata'', Hdata', (simple_appended_cons _ o ops).
      by rewrite simple_step_isOpen, <- !app_assoc.
    + auto.
Qed.
End SimpleFacts.

(** * The claims *)

(** ** C4: the lifecycle error contract *)

Section Lifecycle.
Context {T Time : Type}.

Lemma batched_lifecycle (st : Batched.State T Time) :
  ((Batched.open st).2 = Err (Error LOG_ALREADY_OPEN_MESSAGE)
     ↔ Batched.isOpen st = true) ∧
  ((Batched.close st).2 = Err (Error LOG_ALREADY_CLOSED_MESSAGE)
     ↔ Batched.isOpen st = false) ∧
  ((Batched.clear st).2 = Err (Error LOG_OPEN_CANNOT_CLEAR_MESSAGE)
     ↔ Batched.isOpen st = true).
Proof.
  destruct st as [w [name buf [conn|]]]; unfold Batched.isOpen; simpl;
    repeat split; try done.
  by destruct (Batched.openDB name w).
Qed.

Lemma batched_closed (st : Batched.State T Time) :
  Batched.isOpen st = false →
  (∀ now data, Batched.append now data st = (st, Err (Error LOG_CLOSED_MESSAGE))) ∧
  (∀ f now, Batched.commit f now st = (st, Err (Error LOG_CLOSED_MESSAGE))) ∧
  Batched.countTransactions st = Err (Error LOG_CLOSED_MESSAGE) ∧
  Batched.countCommits st = Err (Error LOG_CLOSED_MESSAGE) ∧
  (∀ U (cb : callback T U) u,
     Batched.replay cb u st = (u, Err (Error LOG_CLOSED_MESSAGE))) ∧
  (∀ a b, Batched.getSeqRangeTransactions a b st = Err (Error LOG_CLOSED_MESSAGE)) ∧
  (∀ a b, Batched.getSeqRangeCommits a b st = Err (Error LOG_CLOSED_MESSAGE)).
Proof.
  destruct st as [w [name buf [conn|]]]; unfold Batched.isOpen; simpl;
    [done|]. intros _. repeat split.
Qed.

Lemma simple_lifecycle (st : Simple.State T Time) :
  ((Simple.open st).2 = Err (Error LOG_ALREADY_OPEN_MESSAGE)
     ↔ Simple.isOpen st = true) ∧
  ((Simple.close st).2 = Err (Error LOG_ALREADY_CLOSED_MESSAGE)
     ↔ Simple.isOpen st = false) ∧
  ((Simple.clear st).2 = Err (Error LOG_OPEN_CANNOT_CLEAR_MESSAGE)
     ↔ Simple.isOpen st = true).
Proof.
  destruct st as [w [name [conn|]]]; unfold Simple.isOpen; simpl;
    repeat split; try done.
  by destruct (Simple.openDB name w).
Qed.

Lemma simple_closed (st : Simple.State T Time) :
  Simple.isOpen st = false →
  (∀ failure now data,
     Simple.append failure now data st = (st, Err (Error LOG_CLOSED_MESSAGE))) ∧
  Simple.countTransactions st = Err (Error LOG_CLOSED_MESSAGE) ∧
  (∀ U (cb : callback T U) u,
     Simple.replay cb u st = (u, Err (Error LOG_CLOSED_MESSAGE))) ∧
  (∀ a b, Simple.getSeqRangeTransactions a b st = Err (Error LOG_CLOSED_MESSAGE)).
Proof.
  destruct st as [w [name [conn|]]]; unfold Simple.isOpen; simpl;
    [done|]. intros _. repeat split.
Qed.
End Lifecycle.

(** C4. In both variants and in every state: [open] throws the
    already-open error exactly when the log is open, [close] throws the
    already-closed error exactly when it is closed, [clear] throws the
    cannot-clear error exactly when it is open; and on a closed log every
    data-access method ([append], [commit], the two counts, [replay], the
    range queries) throws the log-closed error and leaves the state as it
    was. *)
Theorem lifecycle_error_contract {T Time : Type} :
  (∀ st : Batched.State T Time,
     (((Batched.open st).2 = Err (Error LOG_ALREADY_OPEN_MESSAGE)
         ↔ Batched.isOpen st = true) ∧
      ((Batched.close st).2 = Err (Error LOG_ALREADY_CLOSED_MESSAGE)
         ↔ Batched.isOpen st = false) ∧
      ((Batched.clear st).2 = Err (Error LOG_OPEN_CANNOT_CLEAR_MESSAGE)
         ↔ Batched.isOpen st = true)) ∧
     (Batched.isOpen st = false →
      (∀ now data,
         Batched.append now data st = (st, Err (Error LOG_CLOSED_MESSAGE))) ∧
      (∀ f now, Batched.commit f now st = (st, Err (Error LOG_CLOSED_MESSAGE))) ∧
      Batched.countTransactions st = Err (Error LOG_CLOSED_MESSAGE) ∧
      Batched.countCommits st = Err (Error LOG_CLOSED_MESSAGE) ∧
      (∀ U (cb : callback T U) u,
         Batched.replay cb u st = (u, Err (Error LOG_CLOSED_MESSAGE))) ∧
      (∀ a b,
         Batched.getSeqRangeTransactions a b st = Err (Error LOG_CLOSED_MESSAGE)) ∧
      (∀ a b,
         Batched.getSeqRangeCommits a b st = Err (Error LOG_CLOSED_MESSAGE)))) ∧
  (∀ st : Simple.State T Time,
     (((Simple.open st).2 = Err (Error LOG_ALREADY_OPEN_MESSAGE)
         ↔ Simple.isOpen st = true) ∧
      ((Simple.close st).2 = Err (Error LOG_ALREADY_CLOSED_MESSAGE)
         ↔ Simple.isOpen st = false) ∧
      ((Simple.clear st).2 = Err (Error LOG_OPEN_CANNOT_CLEAR_MESSAGE)
         ↔ Simple.isOpen st = true)) ∧
     (Simple.isOpen st = false →
      (∀ failure now data,
         Simple.append failure now data st = (st, Err (Error LOG_CLOSED_MESSAGE))) ∧
      Simple.countTransactions st = Err (Error LOG_CLOSED_MESSAGE) ∧
      (∀ U (cb : callback T U) u,
         Simple.replay cb u st = (u, Err (Error LOG_CLOSED_MESSAGE))) ∧
      (∀ a b,
         Simple.getSeqRangeTransactions a b st = Err (Error LOG_CLOSED_MESSAGE)))).
Proof.
  split; intros st; split.
  - apply batched_lifecycle.
  - apply batched_closed.
  - apply simple_lifecycle.
  - apply simple_closed.
Qed.

(** A closed batched log that still holds a buffered entry: [append] and
    [commit] throw the log-closed error, and [open] does not throw the
    already-open error. *)
Lemma lifecycle_error_contract_witness :
  let st : Batched.State string Z :=
    (∅, Batched.mkLog "log" [mkTransaction None 1 "a"] None) in
  Batched.isOpen st = false ∧
  Batched.append 2 "b" st = (st, Err (Error LOG_CLOSED_MESSAGE)) ∧
  Batched.commit Batched.NoFault 3 st = (st, Err (Error LOG_CLOSED_MESSAGE)).
Proof.
  intros st. split; [reflexivity|].
  destruct (proj1 (@lifecycle_error_contract string Z) st) as [_ Hclosed].
  destruct (Hclosed eq_refl) as (Happend & Hcommit & _).
  split; [apply Happend | apply Hcommit].
Defined.

(** ** C8: committing an empty buffer *)

(** C8. On an open batched log with an empty buffer, [commit] without a
    failure of the store returns normally and adds one commit record with
    an empty list of transactions: [countCommits] is one more than before,
    [countTransactions] is what it was, and the buffer is still empty. *)
Theorem commit_empty_buffer {T Time : Type}
    (now : Time) (w : Batched.World T Time) (this : Batched.Log T Time)
    (conn : string) :
  Batched.db this = Some conn →
  Batched.buffer this = [] →
  let st := (w, this) in
  let st' := (Batched.commit Batched.NoFault now st).1 in
  let commits := Batched.commit_store (Batched.database conn w) in
  (Batched.commit Batched.NoFault now st).2 = Ok () ∧
  records (Batched.commit_store (Batched.database conn st'.1)) =
    records commits ++ [(keygen commits, mkCommit (Some (keygen commits)) now [])] ∧
  Batched.countCommits st' = Ok (count commits + 1) ∧
  Batched.countCommits st = Ok (count commits) ∧
  Batched.countTransactions st' = Batched.countTransactions st ∧
  Batched.buffer st'.2 = [].
Proof.
  intros Hdb Hbuf. cbn zeta.
  rewrite (batched_commit_outcome _ now w this conn Hdb). rewrite Hbuf.
  cbn [Batched.fault_occurs fst snd]. rewrite batched_database_insert.
  unfold Batched.countCommits, Batched.countTransactions, Batched.set_buffer.
  cbn [Batched.db]. rewrite Hdb, batched_database_insert.
  unfold Batched.committed, count. cbn.
  rewrite length_app. cbn. repeat split. do 2 f_equal. lia.
Qed.

(** An open log on a database not yet written to. *)
Lemma commit_empty_buffer_witness :
  let w : Batched.World string Z := ∅ in
  let this := Batched.mkLog "log" [] (Some "log") in
  (Batched.commit Batched.NoFault 7 (w, this)).2 = Ok () ∧
  Batched.countCommits (Batched.commit Batched.NoFault 7 (w, this)).1 = Ok 1 ∧
  Batched.countCommits (w, this) = Ok 0.
Proof.
  intros w this.
  destruct (commit_empty_buffer 7 w this "log" eq_refl eq_refl)
    as (Hr & _ & Hafter & Hbefore & _).
  split; [exact Hr|]. split; [exact Hafter | exact Hbefore].
Defined.

(** ** C9: open, close and open again *)

Section RoundTrip.
Context {T Time : Type}.

Lemma batched_open_closed (w : Batched.World T Time) (this : Batched.Log T Time) :
  Batched.db this = None →
  Batched.open (w, this) =
    (((Batched.openDB (Batched.dbName this) w).1,
      Batched.set_db (Some (Batched.dbName this)) this), Ok ()).
Proof.
  intros Hdb. unfold Batched.open. rewrite Hdb.
  pose proof (batched_openDB_conn (Batched.dbName this) w) as Hc.
  destruct (Batched.openDB _ w) as [w' c]. simpl in *. by subst c.
Qed.

Lemma batched_openDB_idem name (w : Batched.World T Time) :
  (Batched.openDB name (Batched.openDB name w).1).1 = (Batched.openDB name w).1.
Proof.
  unfold Batched.openDB at 2 3. destruct (w !! name) eqn:E; simpl.
  - unfold Batched.openDB. by rewrite E.
  - unfold Batched.openDB, Batched.World in *. by rewrite lookup_insert_eq.
Qed.

Lemma simple_open_closed (w : Simple.World T Time) (this : Simple.Log) :
  Simple.db this = None →
  Simple.open (w, this) =
    (((Simple.openDB (Simple.dbName this) w).1,
      Simple.set_db (Some (Simple.dbName this)) this), Ok ()).
Proof.
  intros Hdb. unfold Simple.open. rewrite Hdb.
  pose proof (simple_openDB_conn (Simple.dbName this) w) as Hc.
  destruct (Simple.openDB _ w) as [w' c]. simpl in *. by subst c.
Qed.

Lemma simple_openDB_idem name (w : Simple.World T Time) :
  (Simple.openDB name (Simple.openDB name w).1).1 = (Simple.openDB name w).1.
Proof.
  unfold Simple.openDB at 2 3. destruct (w !! name) eqn:E; simpl.
  - unfold Simple.openDB. by rewrite E.
  - unfold Simple.openDB, Simple.World in *. by rewrite lookup_insert_eq.
Qed.
End RoundTrip.

(** C9. Take a closed log and no [clear]. After [open(); close(); open()]
    all three calls have returned normally and the log shows, through
    [countTransactions] and through [replay] with any callback, what a log
    newly constructed for the same name shows once it is opened, whether
    that one is opened on the databases as they were before or as they are
    after the first [open(); close()]. In both variants. *)
Theorem reopen_round_trip {T Time : Type} (name : string) :
  (∀ (w : Batched.World T Time) this fresh,
     Batched.constructor name = Ok fresh →
     Batched.dbName this = name →
     Batched.db this = None →
     let opened := Batched.open (w, this) in
     let closed := Batched.close opened.1 in
     let reopened := Batched.open closed.1 in
     opened.2 = Ok () ∧ closed.2 = Ok () ∧ reopened.2 = Ok () ∧
     ∀ w0, w0 = w ∨ w0 = closed.1.1 →
       let other := Batched.open (w0, fresh) in
       other.2 = Ok () ∧
       (∃ n, Batched.countTransactions reopened.1 = Ok n ∧
             Batched.countTransactions other.1 = Ok n) ∧
       ∀ U (cb : callback T U) u,
         Batched.replay cb u reopened.1 = Batched.replay cb u other.1) ∧
  (∀ (w : Simple.World T Time) this fresh,
     Simple.constructor name = Ok fresh →
     Simple.dbName this = name →
     Simple.db this = None →
     let opened := Simple.open (w, this) in
     let closed := Simple.close opened.1 in
     let reopened := Simple.open closed.1 in
     opened.2 = Ok () ∧ closed.2 = Ok () ∧ reopened.2 = Ok () ∧
     ∀ w0, w0 = w ∨ w0 = closed.1.1 →
       let other := Simple.open (w0, fresh) in
       other.2 = Ok () ∧
       (∃ n, Simple.countTransactions reopened.1 = Ok n ∧
             Simple.countTransactions other.1 = Ok n) ∧
       ∀ U (cb : callback T U) u,
         Simple.replay cb u reopened.1 = Simple.replay cb u other.1).
Proof.
  split.
  - intros w this fresh Hnew Hname Hdb. unfold Batched.constructor in Hnew.
    destruct (String.eqb name EmptyString); [done|]. injection Hnew as <-. subst name.
    cbn zeta. rewrite (batched_open_closed w this Hdb).
    cbn [fst snd Batched.close Batched.set_db Batched.db Batched.dbName
         Batched.buffer].
    rewrite batched_open_closed by done.
    cbn [fst snd Batched.set_db Batched.db Batched.dbName Batched.buffer].
    rewrite batched_openDB_idem. do 3 (split; [done|]).
    intros w0 [->| ->]; rewrite batched_open_closed by done;
      cbn [fst snd Batched.set_db Batched.db Batched.dbName Batched.buffer];
      rewrite ?batched_openDB_idem; (split; [done|]); split;
      unfold Batched.countTransactions, Batched.replay; cbn [Batched.db];
      eauto.
  - intros w this fresh Hnew Hname Hdb. unfold Simple.constructor in Hnew.
    destruct (String.eqb name EmptyString); [done|]. injection Hnew as <-. subst name.
    cbn zeta. rewrite (simple_open_closed w this Hdb).
    cbn [fst snd Simple.close Simple.set_db Simple.db Simple.dbName].
    rewrite simple_open_closed by done.
    cbn [fst snd Simple.set_db Simple.db Simple.dbName].
    rewrite simple_openDB_idem. do 3 (split; [done|]).
    intros w0 [->| ->]; rewrite simple_open_closed by done;
      cbn [fst snd Simple.set_db Simple.db Simple.dbName];
      rewrite ?simple_openDB_idem; (split; [done|]); split;
      unfold Simple.countTransactions, Simple.replay; cbn [Simple.db];
      eauto.
Qed.

(** A database holding one committed transaction; the log that wrote it
    is closed and goes through [open(); close(); open()]. *)
Lemma reopen_round_trip_witness :
  let st : Batched.State string Z :=
    Batched.run [Batched.DoOpen; Batched.DoAppend 1 "a";
                 Batched.DoCommit Batched.NoFault 2; Batched.DoClose]
      (∅, Batched.mkLog "log" [] None) in
  let reopened := (Batched.open (Batched.close (Batched.open st).1).1).1 in
  let other := (Batched.open (st.1, Batched.mkLog "log" [] None)).1 in
  Batched.countTransactions reopened = Ok 1 ∧
  Batched.countTransactions other = Ok 1 ∧
  Batched.replay collect [] reopened = Batched.replay collect [] other.
Proof.
  intros st reopened other.
  destruct (proj1 (@reopen_round_trip string Z "log") st.1 st.2
              (Batched.mkLog "log" [] None) eq_refl eq_refl eq_refl)
    as (_ & _ & _ & Hsame).
  destruct (Hsame st.1 (or_introl eq_refl)) as (_ & (n & Hn1 & Hn2) & Hreplay).
  assert (n = 1) as ->.
  { change (Batched.countTransactions reopened = Ok n) in Hn1.
    vm_compute in Hn1. by injection Hn1. }
  split; [exact Hn1|]. split; [exact Hn2|]. apply Hreplay.
Defined.

(** ** C1: a commit that fails *)

Section CommitFailure.
Context {T Time : Type}.

(** Whatever the store does, a [commit] that throws leaves the databases
    and the buffer as they were, and a [commit] that returns has emptied
    the buffer. *)
Lemma batched_commit_all_or_nothing f (now : Time) (st : Batched.State T Time) :
  match (Batched.commit f now st).2 with
  | Ok _ => Batched.buffer (Batched.commit f now st).1.2 = []
  | Err _ => (Batched.commit f now st).1 = st
  end.
Proof.
  destruct st as [w this]. destruct (Batched.db this) as [conn|] eqn:E.
  - rewrite (batched_commit_outcome f now w this conn E).
    by destruct (Batched.fault_occurs f _).
  - unfold Batched.commit. by rewrite E.
Qed.

(** The failures that leave the transaction active ([transaction(...)]
    throwing, a request failing on its own) give the commit failure
    message. *)
Lemma batched_commit_failed f (now : Time) w (this : Batched.Log T Time) conn :
  Batched.db this = Some conn →
  Batched.fault_occurs f (length (Batched.buffer this)) = true →
  Batched.aborted_by_store f = false →
  Batched.commit f now (w, this) =
    ((w, this), Err (Error FAILED_TO_COMMIT_TRANSACTIONS_MESSAGE)).
Proof.
  intros E Hf Hd. rewrite (batched_commit_outcome f now w this conn E).
  by rewrite Hf, Hd.
Qed.
End CommitFailure.

(** C1, where the code departs from it. On an open batched log, when the
    store aborts the transaction at commit time ([tx.done] rejects after
    both kinds of [add] have succeeded), nothing is stored and the buffer
    is kept, but the exception the caller gets is the [InvalidStateError]
    of [tx.abort()] on the finished transaction, not the commit failure
    message: [commitId] has been assigned by then, so the test on it would
    not throw either. *)
Theorem commit_done_rejected {T Time : Type}
    (now : Time) (w : Batched.World T Time) (name : string)
    (buf : list (Transaction T Time)) (conn : string) :
  let this := Batched.mkLog name buf (Some conn) in
  Batched.commit Batched.DoneRejects now (w, this) =
    ((w, this), Err (DOMException InvalidStateError)) ∧
  (Batched.commit Batched.DoneRejects now (w, this)).2 ≠
    Err (Error FAILED_TO_COMMIT_TRANSACTIONS_MESSAGE) ∧
  Batched.commitId (Batched.commit_try Batched.DoneRejects now conn buf w) =
    Some (keygen (Batched.commit_store (Batched.database conn w))).
Proof.
  intros this.
  rewrite (batched_commit_outcome Batched.DoneRejects now w this conn eq_refl).
  cbn [Batched.fault_occurs Batched.aborted_by_store snd]. split; [done|].
  split; [done|]. unfold Batched.commit_try. cbn.
  by destruct (add_all buf _).
Qed.

(** ** C2: closing with a buffer that is not empty *)

(** C2 as stated fails: one entry is appended, the log is closed and
    opened again, and [commit] stores the entry. *)
Lemma close_discards_buffer_counterexample :
  let st : Batched.State string Z :=
    Batched.run [Batched.DoOpen; Batched.DoAppend 1 "a"]
      (∅, Batched.mkLog "log" [] None) in
  Batched.countTransactions st = Ok 0 ∧
  Batched.countTransactions
    (Batched.run [Batched.DoClose; Batched.DoOpen; Batched.DoCommit Batched.NoFault 2] st)
    = Ok 1 ∧
  ¬ Batched.close_discards_buffer 2 st.
Proof.
  intros st. split; [reflexivity|]. split; [reflexivity|].
  intros [Hbuf _]. vm_compute in Hbuf. discriminate Hbuf.
Qed.

(** C2 amended. [close] on an open batched log returns normally, stores
    nothing and leaves the buffer as it is; after [open], a [commit]
    without a failure of the store appends the buffered transactions, in
    the order of the buffer, to those stored before the [close]. *)
Theorem close_keeps_buffer {T Time : Type}
    (now : Time) (w : Batched.World T Time) (this : Batched.Log T Time) :
  Batched.db this = Some (Batched.dbName this) →
  let name := Batched.dbName this in
  let closed := Batched.close (w, this) in
  let reopened := Batched.open closed.1 in
  let committed := Batched.commit Batched.NoFault now reopened.1 in
  closed.2 = Ok () ∧
  closed.1.1 = w ∧
  Batched.buffer closed.1.2 = Batched.buffer this ∧
  reopened.2 = Ok () ∧
  committed.2 = Ok () ∧
  Batched.stored name committed.1.1 =
    Batched.stored name w ++
    stamp (keygen (Batched.txn_store (Batched.database name w)))
          (Batched.buffer this) ∧
  Batched.persisted_data name committed.1.1 =
    Batched.persisted_data name w ++ Batched.buffered_data this ∧
  Batched.countTransactions committed.1 =
    Ok (count (Batched.txn_store (Batched.database name w)) +
        Z.of_nat (length (Batched.buffer this))).
Proof.
  destruct this as [name buf c]. cbn [Batched.db Batched.dbName].
  intros ->. cbn zeta. unfold Batched.close.
  cbn [fst snd Batched.db Batched.set_db Batched.dbName Batched.buffer].
  rewrite batched_open_closed by done.
  cbn [fst snd Batched.set_db Batched.dbName Batched.buffer Batched.db].
  rewrite (batched_commit_outcome _ now _ _ name) by done.
  cbn [Batched.fault_occurs fst snd Batched.buffer Batched.set_buffer
       Batched.dbName Batched.db].
  unfold Batched.persisted_data, Batched.stored, Batched.countTransactions,
    Batched.buffered_data.
  unfold Batched.set_db, Batched.set_buffer.
  cbn [Batched.db Batched.buffer Batched.dbName].
  rewrite !batched_database_insert, batched_database_openDB.
  do 5 (split; [done|]). split; [|split].
  - unfold Batched.committed. cbn [Batched.txn_store].
    by destruct (add_all_eq buf (Batched.txn_store (Batched.database name w)))
      as [_ ->].
  - apply batched_committed_data.
  - unfold Batched.committed. cbn [Batched.txn_store]. f_equal.
    apply count_add_all.
Qed.

(** Two entries buffered when the log is closed. *)
Lemma close_keeps_buffer_witness :
  let st : Batched.State string Z :=
    Batched.run [Batched.DoOpen; Batched.DoAppend 1 "a"; Batched.DoAppend 2 "b"]
      (∅, Batched.mkLog "log" [] None) in
  let committed :=
    Batched.commit Batched.NoFault 3 (Batched.open (Batched.close st).1).1 in
  Batched.buffer (Batched.close st).1.2 =
    [mkTransaction None 1 "a"; mkTransaction None 2 "b"] ∧
  Batched.persisted_data "log" committed.1.1 = ["a"; "b"] ∧
  Batched.countTransactions committed.1 = Ok 2.
Proof.
  intros st committed.
  destruct (close_keeps_buffer 3 st.1 st.2 eq_refl)
    as (_ & _ & Hbuf & _ & _ & _ & Hdata & Hcount).
  split; [exact Hbuf|]. split; [exact Hdata | exact Hcount].
Defined.

(** ** C3: [getSeqRangeTransactions] with a start below 1 *)

(** In neither variant does [getSeqRangeTransactions] throw the
    invalid-sequence-id error. *)
Lemma getSeqRangeTransactions_no_sequence_check {T Time : Type} (a : Z) (b : option Z) :
  (∀ st : Batched.State T Time,
     Batched.getSeqRangeTransactions a b st ≠
       Err (Error INVALID_SEQUENCE_ID_MESSAGE)) ∧
  (∀ st : Simple.State T Time,
     Simple.getSeqRangeTransactions a b st ≠
       Err (Error INVALID_SEQUENCE_ID_MESSAGE)).
Proof.
  split; intros [w this]; destruct this; simpl;
    (match goal with c : option string |- _ => destruct c end); try done;
    unfold Batched.key_range, Simple.key_range, IDBKeyRange_bound;
    destruct (truthy b); try done; by destruct (_ <? _).
Qed.

(** C3, where the code departs from it. A log of either variant holding
    one transaction, asked for the range from 0 with no end, returns that
    transaction instead of throwing the invalid-sequence-id error;
    [getSeqRangeCommits] on the same batched log does throw it. *)
Theorem getSeqRangeTransactions_start_0 :
  let batched : Batched.State string Z :=
    Batched.run [Batched.DoOpen; Batched.DoAppend 1 "a"; Batched.DoCommit Batched.NoFault 2]
      (∅, Batched.mkLog "log" [] None) in
  let simple : Simple.State string Z :=
    Simple.run [Simple.DoOpen; Simple.DoAppend None 1 "a"]
      (∅, Simple.mkLog "log" None) in
  Batched.getSeqRangeTransactions 0 None batched =
    Ok [mkTransaction (Some 1%positive) 1 "a"] ∧
  Simple.getSeqRangeTransactions 0 None simple =
    Ok [mkTransaction (Some 1%positive) 1 "a"] ∧
  Batched.getSeqRangeCommits 0 None batched =
    Err (Error INVALID_SEQUENCE_ID_MESSAGE).
Proof. repeat split; vm_compute; reflexivity. Qed.

(** ** C6: the range query on transactions *)

Section RangeFacts.
Context {V : Type} `{!KeyPath V}.

Lemma includes_lowerBound a k :
  includes (lowerBound a) k = true ↔ in_range a None k.
Proof. unfold in_range. simpl. rewrite Z.leb_le. tauto. Qed.

Lemma includes_bound a b k :
  includes (bound a b) k = true ↔ in_range a (Some b) k.
Proof. unfold in_range. simpl. by rewrite andb_true_iff, !Z.leb_le. Qed.

(** The range built from the arguments when the end is left out or is
    not below a start of at least 1. *)
Lemma key_range_valid a b :
  1 ≤ a →
  match b with Some b' => a ≤ b' | None => True end →
  ∃ r, Batched.key_range a b = Ok r ∧ Simple.key_range a b = Ok r ∧
       ∀ k, includes r k = true ↔ in_range a b k.
Proof.
  intros Ha Hb. destruct b as [b'|]; cbn beta iota in Hb.
  - exists (bound a b').
    unfold Batched.key_range, Simple.key_range, IDBKeyRange_bound. simpl.
    destruct (Z.eqb_spec b' 0) as [->|_]; [exfalso; lia|]. simpl.
    destruct (Z.ltb_spec b' a); [exfalso; lia|].
    split; [done|]. split; [done|]. apply includes_bound.
  - exists (lowerBound a). split; [done|]. split; [done|].
    apply includes_lowerBound.
Qed.

(** A bounded range whose end is below its start and is not 0 cannot be
    built. *)
Lemma key_range_DataError a b' :
  b' ≠ 0 → b' < a →
  Batched.key_range a (Some b') = Err (DOMException DataError) ∧
  Simple.key_range a (Some b') = Err (DOMException DataError).
Proof.
  intros Hb Hlt.
  unfold Batched.key_range, Simple.key_range, IDBKeyRange_bound. simpl.
  destruct (Z.eqb_spec b' 0); [done|]. simpl.
  by destruct (Z.ltb_spec b' a); [|exfalso; lia].
Qed.

Lemma openCursor_selects a b r (s : ObjectStore V) :
  store_ok s →
  (∀ k, includes r k = true ↔ in_range a b k) →
  selects a b (records s) (openCursor (Some r) s).
Proof.
  intros Hs Hr. split.
  - by apply openCursor_ascending.
  - intros kv. rewrite elem_of_openCursor, Hr. tauto.
Qed.
End RangeFacts.

(** C6 as stated fails: with one transaction stored, the range from 1 to
    0 holds no id, yet the query returns the transaction. *)
Lemma range_finish_0_counterexample :
  let batched : Batched.State string Z :=
    Batched.run [Batched.DoOpen; Batched.DoAppend 1 "a";
                 Batched.DoCommit Batched.NoFault 2]
      (∅, Batched.mkLog "log" [] None) in
  Batched.getSeqRangeTransactions 1 (Some 0) batched =
    Ok [mkTransaction (Some 1%positive) 1 "a"] ∧
  ¬ range_result 1 (Some 0) (Batched.stored "log" batched.1)
      (Batched.getSeqRangeTransactions 1 (Some 0) batched).
Proof.
  intros batched. split; [vm_compute; reflexivity|].
  intros (found & Hr & _ & Hin).
  assert (Batched.getSeqRangeTransactions 1 (Some 0) batched =
            Ok [mkTransaction (Some 1%positive) 1 "a"]) as E
    by (vm_compute; reflexivity).
  rewrite E in Hr. injection Hr as Hr.
  destruct found as [|kv found]; [done|].
  destruct (proj1 (Hin kv)) as [_ [Hlo Hhi]]; [left|]. lia.
Qed.

(** C6 amended. On an open log of either variant whose store is in order,
    for a start [a] of at least 1: with an end [b] not below [a] the query
    returns exactly the stored transactions with an id from [a] to [b],
    both included, in ascending order of the ids; with the end left out,
    exactly those with an id of at least [a], in ascending order. *)
Theorem getSeqRangeTransactions_in_range {T Time : Type} (a : Z) (b : option Z) :
  1 ≤ a →
  match b with Some b' => a ≤ b' | None => True end →
  (∀ (w : Batched.World T Time) this conn,
     Batched.db this = Some conn →
     store_ok (Batched.txn_store (Batched.database conn w)) →
     range_result a b (Batched.stored conn w)
       (Batched.getSeqRangeTransactions a b (w, this))) ∧
  (∀ (w : Simple.World T Time) this conn,
     Simple.db this = Some conn →
     store_ok (Simple.simpletxn (Simple.database conn w)) →
     range_result a b (Simple.stored conn w)
       (Simple.getSeqRangeTransactions a b (w, this))).
Proof.
  intros Ha Hb. destruct (key_range_valid a b Ha Hb) as (r & Hrb & Hrs & Hr).
  split; intros w this conn Hdb Hok.
  - unfold Batched.getSeqRangeTransactions. rewrite Hdb, Hrb.
    eexists. split; [reflexivity|]. by apply openCursor_selects.
  - unfold Simple.getSeqRangeTransactions. rewrite Hdb, Hrs.
    eexists. split; [reflexivity|]. by apply openCursor_selects.
Qed.

(** Three transactions stored, asked for ids 2 to 3. *)
Lemma getSeqRangeTransactions_in_range_witness :
  let batched : Batched.State string Z :=
    Batched.run [Batched.DoOpen; Batched.DoAppend 1 "a"; Batched.DoAppend 2 "b";
                 Batched.DoAppend 3 "c"; Batched.DoCommit Batched.NoFault 4]
      (∅, Batched.mkLog "log" [] None) in
  range_result 2 (Some 3) (Batched.stored "log" batched.1)
    (Batched.getSeqRangeTransactions 2 (Some 3) batched) ∧
  Batched.getSeqRangeTransactions 2 (Some 3) batched =
    Ok [mkTransaction (Some 2%positive) 2 "b"; mkTransaction (Some 3%positive) 3 "c"].
Proof.
  intros batched. split; [|vm_compute; reflexivity].
  apply (proj1 (@getSeqRangeTransactions_in_range string Z 2 (Some 3)
                  ltac:(lia) ltac:(simpl; lia)) batched.1 batched.2 "log" eq_refl).
  change (Batched.txn_store (Batched.database "log" batched.1))
    with (add_all [mkTransaction None 1 "a"; mkTransaction None 2 "b";
                   mkTransaction None 3 "c"]
            (createObjectStore (V:=Transaction string Z))).2.
  apply (store_ok_add_all Transaction_keyPath_inject),
    store_ok_createObjectStore.
Defined.

(** ** C7: the range query on commits *)

Section ForEachFacts.
Context {A B : Type} (f : A → result B).

Lemma for_each_Ok xs ys :
  for_each f xs = Ok ys ↔ Forall2 (λ x y, f x = Ok y) xs ys.
Proof.
  revert ys. induction xs as [|x xs IH]; intros ys; simpl.
  - split; [intros [= <-]; constructor | by inversion 1].
  - destruct (f x) as [y|e] eqn:Hx; simpl.
    + destruct (for_each f xs) as [ys'|e] eqn:Hxs; simpl.
      * split.
        -- intros [= <-]. constructor; [done|]. by apply IH.
        -- inversion 1 as [|? y' ? ys'' Hy Hys]; subst.
           apply IH in Hys. rewrite Hx in Hy.
           injection Hy as <-. by injection Hys as <-.
      * split; [done|]. inversion 1 as [|? y' ? ys'' Hy Hys]; subst.
        by apply IH in Hys.
    + split; [done|]. inversion 1; congruence.
Qed.

Lemma for_each_Err xs e :
  for_each f xs = Err e → ∃ x, x ∈ xs ∧ f x = Err e.
Proof.
  induction xs as [|x xs IH]; simpl; [done|].
  destruct (f x) as [y|e'] eqn:Hx; simpl.
  - destruct (for_each f xs) as [ys'|e'] eqn:Hxs; simpl; [done|].
    intros [= ->]. destruct IH as (x' & Hin & Hx'); [done|].
    exists x'. split; [by right|done].
  - intros [= ->]. exists x. split; [left|done].
Qed.
End ForEachFacts.

Section CommitRangeFacts.
Context {T Time : Type}.
Implicit Types (d : Batched.Database T Time)
  (found : list (positive * Commit Time)).

Lemma resolve_Ok d transactionId t :
  Batched.resolve d transactionId = Ok t →
  (transactionId, t) ∈ records (Batched.txn_store d).
Proof.
  unfold Batched.resolve, get.
  destruct (get_record _ _) eqn:E; [|done].
  intros [= <-]. by apply get_record_Some.
Qed.

Lemma resolve_Err d transactionId e :
  Batched.resolve d transactionId = Err e →
  e = Error TRANSACTION_NOT_FOUND ∧
  transactionId ∉ (records (Batched.txn_store d)).*1.
Proof.
  unfold Batched.resolve, get.
  destruct (get_record _ _) eqn:E; [done|].
  intros [= <-]. split; [done|]. by apply get_record_None.
Qed.

(** The body of the loop over the commits in [getSeqRangeCommits]. *)
Lemma commit_loop_result d found :
  let r :=
    for_each (λ '(commitId, commit),
      transactions ← for_each (Batched.resolve d) (commit_transactions commit);
      Ok (mkCommitInfo commitId (commit_time commit) transactions)) found in
  (Batched.resolvable d found →
     ∃ infos, r = Ok infos ∧ Forall2 (Batched.resolved d) found infos) ∧
  (¬ Batched.resolvable d found → r = Err (Error TRANSACTION_NOT_FOUND)).
Proof.
  intros r. destruct r as [infos|e] eqn:Hr; subst r.
  - apply for_each_Ok in Hr.
    assert (Forall2 (Batched.resolved d) found infos ∧ Batched.resolvable d found)
      as [Hres Hall].
    { unfold Batched.resolvable.
      induction Hr as [|[k c] info found infos Hbody Hr IH].
      - split; constructor.
      - destruct IH as [IH1 IH2]. simpl in Hbody.
        destruct (for_each (Batched.resolve d) (commit_transactions c))
          as [ts|e] eqn:Hts; simpl in Hbody; [|done].
        injection Hbody as <-. apply for_each_Ok in Hts.
        split; constructor; try done.
        + split; [done|]. split; [done|]. simpl.
          eapply Forall2_impl; [exact Hts|].
          intros tid t. apply resolve_Ok.
        + simpl. eapply Forall2_Forall_l; [exact Hts|].
          apply Forall_forall. intros t _ tid Hr'. apply resolve_Ok in Hr'.
          apply list_elem_of_fmap. by exists (tid, t). }
    split; [eauto|done].
  - apply for_each_Err in Hr as ([k c] & Hin & Hbody). simpl in Hbody.
    destruct (for_each (Batched.resolve d) (commit_transactions c))
      as [ts|e'] eqn:Hts; simpl in Hbody; [done|].
    injection Hbody as ->.
    apply for_each_Err in Hts as (tid & Htid & Hts).
    apply resolve_Err in Hts as [-> Hmiss].
    split; [|done]. intros Hall. exfalso. unfold Batched.resolvable in Hall.
    rewrite Forall_forall in Hall. specialize (Hall _ Hin). simpl in Hall.
    rewrite Forall_forall in Hall. by apply Hmiss, Hall.
Qed.
End CommitRangeFacts.

(** C7 as stated fails: with one commit stored, the range from 1 to 0
    holds no id, yet the query returns the commit. *)
Lemma commit_range_finish_0_counterexample :
  let batched : Batched.State string Z :=
    Batched.run [Batched.DoOpen; Batched.DoAppend 1 "a";
                 Batched.DoCommit Batched.NoFault 2]
      (∅, Batched.mkLog "log" [] None) in
  Batched.getSeqRangeCommits 1 (Some 0) batched =
    Ok [mkCommitInfo 1%positive 2 [mkTransaction (Some 1%positive) 1 "a"]] ∧
  ¬ Batched.commits_result 1 (Some 0) (Batched.database "log" batched.1)
      (Batched.getSeqRangeCommits 1 (Some 0) batched).
Proof.
  intros batched.
  assert (Batched.getSeqRangeCommits 1 (Some 0) batched =
            Ok [mkCommitInfo 1%positive 2 [mkTransaction (Some 1%positive) 1 "a"]])
    as E by (vm_compute; reflexivity).
  split; [exact E|]. rewrite E.
  intros (found & [_ Hin] & Hres & _).
  destruct found as [|kc found].
  - destruct Hres as (infos & Hr & Hall); [constructor|].
    injection Hr as <-. inversion Hall.
  - destruct (proj1 (Hin kc)) as [_ [Hlo Hhi]]; [left|]. lia.
Qed.

(** C7 amended. On an open batched log whose stores are in order:
    a start below 1 gives the invalid-sequence-id error; for a start [a]
    of at least 1, with the end left out or not below [a], the commits
    taken are exactly the stored ones with an id in the inclusive range
    (from [a] on when the end is left out), in ascending order of the
    ids; when every transaction id they list resolves, the result has one
    [CommitInfo] per such commit, in that order, carrying the commit's id
    and time and, in the order of the commit's list, the transaction
    stored under each id; when some id does not resolve, the call throws
    the transaction-not-found error and returns nothing. *)
Theorem getSeqRangeCommits_in_range {T Time : Type}
    (a : Z) (b : option Z) (w : Batched.World T Time)
    (this : Batched.Log T Time) (conn : string) :
  Batched.db this = Some conn →
  Batched.database_ok (Batched.database conn w) →
  (a < 1 →
   Batched.getSeqRangeCommits a b (w, this) =
     Err (Error INVALID_SEQUENCE_ID_MESSAGE)) ∧
  (1 ≤ a →
   match b with Some b' => a ≤ b' | None => True end →
   Batched.commits_result a b (Batched.database conn w)
     (Batched.getSeqRangeCommits a b (w, this))).
Proof.
  intros Hdb [Hc _]. unfold Batched.getSeqRangeCommits. rewrite Hdb. split.
  - intros Ha. by destruct (Z.ltb_spec a 1); [|exfalso; lia].
  - intros Ha Hb. destruct (Z.ltb_spec a 1); [exfalso; lia|].
    destruct (key_range_valid a b Ha Hb) as (r & -> & _ & Hr).
    exists (openCursor (Some r) (Batched.commit_store (Batched.database conn w))).
    split; [by apply openCursor_selects|]. apply commit_loop_result.
Qed.

(** Two commits, asked from id 2 on; and a database whose only commit
    lists an id under which nothing is stored. *)
Lemma getSeqRangeCommits_in_range_witness :
  let batched : Batched.State string Z :=
    Batched.run [Batched.DoOpen; Batched.DoAppend 1 "a";
                 Batched.DoCommit Batched.NoFault 2; Batched.DoAppend 3 "b";
                 Batched.DoCommit Batched.NoFault 4]
      (∅, Batched.mkLog "log" [] None) in
  let broken : Batched.Database string Z :=
    Batched.mkDatabase
      (mkObjectStore 2%positive
         [(1%positive, mkCommit (Some 1%positive) 2 [5%positive])])
      createObjectStore in
  Batched.commits_result 2 None (Batched.database "log" batched.1)
    (Batched.getSeqRangeCommits 2 None batched) ∧
  Batched.getSeqRangeCommits 2 None batched =
    Ok [mkCommitInfo 2%positive 4 [mkTransaction (Some 2%positive) 3 "b"]] ∧
  Batched.commits_result 1 None broken
    (Batched.getSeqRangeCommits 1 None
       ({["log" := broken]}, Batched.mkLog "log" [] (Some "log"))) ∧
  Batched.getSeqRangeCommits 1 None
    ({["log" := broken]}, Batched.mkLog "log" [] (Some "log")) =
    Err (Error TRANSACTION_NOT_FOUND).
Proof.
  intros batched broken. split; [|split; [vm_compute; reflexivity|split]].
  - assert (Batched.database_ok (Batched.database "log" batched.1)) as Hok.
    { vm_compute Batched.database. split; solve_store_ok. }
    apply (proj2 (getSeqRangeCommits_in_range 2 None batched.1 batched.2 "log"
                    eq_refl Hok)); [lia|done].
  - assert (Batched.database_ok
              (Batched.database "log" ({["log" := broken]}))) as Hok.
    { vm_compute Batched.database. split; solve_store_ok. }
    apply (proj2 (getSeqRangeCommits_in_range 1 None {["log" := broken]}
                    (Batched.mkLog "log" [] (Some "log")) "log" eq_refl Hok));
      [lia|done].
  - vm_compute; reflexivity.
Defined.

(** ** C10: a falsy [finishId] *)

(** C10. In the range query of either variant and in [getSeqRangeCommits],
    [finishId = 0] gives what leaving [finishId] out gives: the range built
    is the open-ended one from [startId], not the inclusive range up to 0,
    since the bounded range is chosen only for a truthy [finishId]. On an
    open log the query on transactions with [finishId = 0] so returns the
    stored transactions with an id of at least [startId], in the order of
    the store: exactly those, in ascending order of the ids, when the
    store is in order. [getSeqRangeCommits] with [finishId = 0] and a start
    of at least 1 takes exactly the commits with an id of at least
    [startId], in ascending order, and returns one [CommitInfo] for each
    with its transactions resolved, or throws the transaction-not-found
    error when an id does not resolve. *)
Theorem finish_zero_is_omitted {T Time : Type} (startId : Z) :
  Batched.key_range startId (Some 0) = Ok (lowerBound startId) ∧
  Simple.key_range startId (Some 0) = Ok (lowerBound startId) ∧
  (∀ st : Batched.State T Time,
     Batched.getSeqRangeTransactions startId (Some 0) st =
       Batched.getSeqRangeTransactions startId None st ∧
     Batched.getSeqRangeCommits startId (Some 0) st =
       Batched.getSeqRangeCommits startId None st) ∧
  (∀ st : Simple.State T Time,
     Simple.getSeqRangeTransactions startId (Some 0) st =
       Simple.getSeqRangeTransactions startId None st) ∧
  (∀ (w : Batched.World T Time) this conn,
     Batched.db this = Some conn →
     Batched.getSeqRangeTransactions startId (Some 0) (w, this) =
       Ok (filter (λ kv, startId ≤ Z.pos kv.1) (Batched.stored conn w)).*2 ∧
     (store_ok (Batched.txn_store (Batched.database conn w)) →
      range_result startId None (Batched.stored conn w)
        (Batched.getSeqRangeTransactions startId (Some 0) (w, this))) ∧
     (1 ≤ startId →
      Batched.database_ok (Batched.database conn w) →
      Batched.commits_result startId None (Batched.database conn w)
        (Batched.getSeqRangeCommits startId (Some 0) (w, this)))) ∧
  (∀ (w : Simple.World T Time) this conn,
     Simple.db this = Some conn →
     Simple.getSeqRangeTransactions startId (Some 0) (w, this) =
       Ok (filter (λ kv, startId ≤ Z.pos kv.1) (Simple.stored conn w)).*2 ∧
     (store_ok (Simple.simpletxn (Simple.database conn w)) →
      range_result startId None (Simple.stored conn w)
        (Simple.getSeqRangeTransactions startId (Some 0) (w, this)))).
Proof.
  do 4 (split; [repeat split|]).
  assert (∀ V (rows : list (positive * V)),
            filter (λ kv, includes (lowerBound startId) kv.1 = true) rows =
            filter (λ kv, startId ≤ Z.pos kv.1) rows) as Hfilter.
  { intros V rows. apply list_filter_iff. intros kv. simpl. apply Z.leb_le. }
  split; intros w this conn Hdb.
  - split; [|split].
    + unfold Batched.getSeqRangeTransactions. rewrite Hdb.
      change (Batched.key_range startId (Some 0)) with (Ok (lowerBound startId)).
      simpl. unfold Batched.stored. by rewrite Hfilter.
    + intros Hok. unfold Batched.getSeqRangeTransactions. rewrite Hdb.
      change (Batched.key_range startId (Some 0)) with (Ok (lowerBound startId)).
      eexists. split; [reflexivity|].
      apply openCursor_selects; [done|]. apply includes_lowerBound.
    + intros Ha [Hc _]. unfold Batched.getSeqRangeCommits. rewrite Hdb.
      destruct (Z.ltb_spec startId 1); [exfalso; lia|].
      change (Batched.key_range startId (Some 0)) with (Ok (lowerBound startId)).
      exists (openCursor (Some (lowerBound startId))
                (Batched.commit_store (Batched.database conn w))).
      split; [|apply commit_loop_result].
      apply openCursor_selects; [done|]. apply includes_lowerBound.
  - split.
    + unfold Simple.getSeqRangeTransactions. rewrite Hdb.
      change (Simple.key_range startId (Some 0)) with (Ok (lowerBound startId)).
      simpl. unfold Simple.stored. by rewrite Hfilter.
    + intros Hok. unfold Simple.getSeqRangeTransactions. rewrite Hdb.
      change (Simple.key_range startId (Some 0)) with (Ok (lowerBound startId)).
      eexists. split; [reflexivity|].
      apply openCursor_selects; [done|]. apply includes_lowerBound.
Qed.

(** Three transactions in two commits, asked from id 2 on with
    [finishId = 0]: the second and third transaction, and the second
    commit. *)
Lemma finish_zero_is_omitted_witness :
  let batched : Batched.State string Z :=
    Batched.run [Batched.DoOpen; Batched.DoAppend 1 "a";
                 Batched.DoCommit Batched.NoFault 2; Batched.DoAppend 3 "b";
                 Batched.DoAppend 4 "c"; Batched.DoCommit Batched.NoFault 5]
      (∅, Batched.mkLog "log" [] None) in
  let simple : Simple.State string Z :=
    Simple.run [Simple.DoOpen; Simple.DoAppend None 1 "a";
                Simple.DoAppend None 2 "b"]
      (∅, Simple.mkLog "log" None) in
  range_result 2 None (Batched.stored "log" batched.1)
    (Batched.getSeqRangeTransactions 2 (Some 0) batched) ∧
  Batched.getSeqRangeTransactions 2 (Some 0) batched =
    Ok [mkTransaction (Some 2%positive) 3 "b";
        mkTransaction (Some 3%positive) 4 "c"] ∧
  Batched.commits_result 2 None (Batched.database "log" batched.1)
    (Batched.getSeqRangeCommits 2 (Some 0) batched) ∧
  Batched.getSeqRangeCommits 2 (Some 0) batched =
    Ok [mkCommitInfo 2%positive 5
          [mkTransaction (Some 2%positive) 3 "b";
           mkTransaction (Some 3%positive) 4 "c"]] ∧
  range_result 2 None (Simple.stored "log" simple.1)
    (Simple.getSeqRangeTransactions 2 (Some 0) simple) ∧
  Simple.getSeqRangeTransactions 2 (Some 0) simple =
    Ok [mkTransaction (Some 2%positive) 2 "b"].
Proof.
  intros batched simple.
  destruct (@finish_zero_is_omitted string Z 2) as (_ & _ & _ & _ & Hb & Hs).
  destruct (Hb batched.1 batched.2 "log" eq_refl) as (Hbq & Hbr & Hbc).
  destruct (Hs simple.1 simple.2 "log" eq_refl) as (Hsq & Hsr).
  assert (Batched.database_ok (Batched.database "log" batched.1)) as Hok.
  { vm_compute Batched.database. split; solve_store_ok. }
  assert (store_ok (Simple.simpletxn (Simple.database "log" simple.1))) as Hsok.
  { vm_compute Simple.database. solve_store_ok. }
  split; [exact (Hbr (proj2 Hok))|].
  split; [etrans; [exact Hbq|vm_compute; reflexivity]|].
  split; [exact (Hbc ltac:(lia) Hok)|].
  split; [vm_compute; reflexivity|].
  split; [exact (Hsr Hsok)|].
  etrans; [exact Hsq|vm_compute; reflexivity].
Defined.

(** ** C5: replay *)

Section ReplayFacts.
Context {T Time : Type}.

Lemma store_ok_ids (s : ObjectStore (Transaction T Time)) :
  store_ok s → txn_id <$> (records s).*2 = Some <$> (records s).*1.
Proof.
  intros [_ _ Hin]. induction Hin as [|[k t] rows Hk _ IH]; [done|].
  rewrite !fmap_cons. cbn in Hk. cbn [fst snd]. by rewrite Hk, IH.
Qed.

(** What [replay] does with the rows it scans. *)
Lemma cursor_loop_replay {U} (cb : callback T U) (u : U)
    (rows : list (positive * Transaction T Time)) :
  let noted := cursor_loop (traced cb) rows (u, []) in
  cursor_loop cb rows u = (noted.1.1, noted.2) ∧
  scan_outcome cb (txn_data <$> rows.*2) noted.1.2 noted.2.
Proof.
  cbn zeta. split.
  - symmetry. apply cursor_loop_traced_erase.
  - destruct (cursor_loop_traced (Time:=Time) cb rows u []) as (seen & -> & Hout).
    done.
Qed.

Lemma batched_isOpen_conn (st : Batched.State T Time) :
  Batched.isOpen st = true → Batched.log_ok st.2 →
  Batched.db st.2 = Some (Batched.dbName st.2).
Proof.
  unfold Batched.isOpen. destruct (Batched.db st.2) as [conn|] eqn:E; [|done].
  intros _ Hok. by rewrite (Hok conn E).
Qed.

Lemma simple_isOpen_conn (st : Simple.State T Time) :
  Simple.isOpen st = true → Simple.log_ok st.2 →
  Simple.db st.2 = Some (Simple.dbName st.2).
Proof.
  unfold Simple.isOpen. destruct (Simple.db st.2) as [conn|] eqn:E; [|done].
  intros _ Hok. by rewrite (Hok conn E).
Qed.

Lemma cursor_loop_scans {U} (cb : callback T U) (u : U)
    (rows : list (positive * Transaction T Time)) :
  scans cb (txn_data <$> rows.*2) u (cursor_loop cb rows u).
Proof.
  revert u. induction rows as [|[k t] rows IH]; intros u.
  - constructor.
  - rewrite !fmap_cons. cbn [cursor_loop snd].
    destruct (cb (txn_data t) u) as [u' [e|]] eqn:Hcb.
    + by apply scans_throw.
    + by eapply scans_next.
Qed.

Lemma cursor_loop_stop_at (p : T → bool) (e : string) (seen : list T)
    (rows : list (positive * Transaction T Time)) :
  cursor_loop (stop_at p e) rows seen =
    (seen ++ through p (txn_data <$> rows.*2),
     if existsb p (txn_data <$> rows.*2) then Err (Thrown e) else Ok ()).
Proof.
  revert seen. induction rows as [|[k t] rows IH]; intros seen.
  - simpl. by rewrite app_nil_r.
  - rewrite !fmap_cons. cbn [cursor_loop snd through existsb].
    unfold stop_at at 1. destruct (p (txn_data t)); [done|].
    rewrite IH. cbn [orb]. by rewrite <- app_assoc.
Qed.

(** One call, as the ledger has it. *)
Lemma batched_step_ledger (o : Batched.op T Time) (st : Batched.State T Time) :
  Batched.log_ok st.2 →
  let name := Batched.dbName st.2 in
  let st' := (Batched.step o st).1 in
  Batched.ledger_step o
    (Batched.isOpen st, Batched.buffered_data st.2,
     Batched.persisted_data name st.1) =
  (Batched.isOpen st', Batched.buffered_data st'.2,
   Batched.persisted_data name st'.1).
Proof.
  destruct st as [w this]. intros Hok. cbn [fst snd] in *.
  unfold Batched.isOpen, Batched.persisted_data, Batched.stored,
    Batched.buffered_data. cbn [fst snd].
  destruct o as [| | |now data|f now]; cbn [Batched.step Batched.ledger_step].
  - destruct this as [name buf [conn|]]; simpl; [done|].
    pose proof (batched_database_openDB name name w) as Hd.
    destruct (Batched.openDB _ w) as [w' c]. simpl in *. by rewrite Hd.
  - by destruct this as [name buf [conn|]].
  - destruct this as [name buf [conn|]]; simpl; [done|].
    unfold Batched.database, Batched.deleteDB, Batched.World in *.
    by rewrite lookup_delete_eq.
  - destruct this as [name buf [conn|]]; simpl; [|done].
    by rewrite fmap_app.
  - rewrite length_fmap. destruct (Batched.db this) as [conn|] eqn:E.
    + rewrite (batched_commit_outcome f now w this conn E).
      rewrite <- (Hok conn E).
      destruct (Batched.fault_occurs f _); simpl; [by rewrite E|].
      by rewrite E, batched_database_insert, batched_committed_data.
    + unfold Batched.commit. rewrite E. simpl. by rewrite E.
Qed.

(** A history, as the ledger has it. *)
Lemma batched_run_ledger (ops : list (Batched.op T Time))
    (st : Batched.State T Time) :
  Batched.log_ok st.2 →
  Batched.ledger_run ops
    (Batched.isOpen st, Batched.buffered_data st.2,
     Batched.persisted_data (Batched.dbName st.2) st.1) =
  (Batched.isOpen (Batched.run ops st),
   Batched.buffered_data (Batched.run ops st).2,
   Batched.persisted_data (Batched.dbName st.2) (Batched.run ops st).1).
Proof.
  revert st. induction ops as [|o ops IH]; intros st Hok; [done|].
  cbn [Batched.ledger_run Batched.run foldl].
  fold (Batched.run ops (Batched.step o st).1).
  fold (Batched.ledger_run ops
          (Batched.ledger_step o
             (Batched.isOpen st, Batched.buffered_data st.2,
              Batched.persisted_data (Batched.dbName st.2) st.1))).
  rewrite (batched_step_ledger o st Hok).
  destruct (batched_step_log_ok o st Hok) as [Hok' Hname'].
  rewrite <- Hname'. by apply IH.
Qed.
End ReplayFacts.

(** C5. Take a log of either variant constructed for a name under which
    no database exists, and any history of [open], [close], [append] and
    (batched) [commit] calls, failing ones and store failures included,
    without [clear], after which the log is open. Then:
    - the stored transactions have strictly increasing ids, each
      carrying its own;
    - their data, in that order, are exactly the data committed: the
      data appended, in the order of the calls of [append], that a
      [commit] the store did not fail has since stored, the rest being
      still in the buffer (simple variant: the data of the [append]
      calls that completed);
    - [replay] with any callback is the scan of those data in that
      order: the callback is invoked on each in turn, once; when an
      invocation throws, [replay] throws that exception and no later
      transaction is passed; when none throws, all are passed and
      [replay] returns;
    - in particular, with the callback that notes its argument and
      throws [e] on the data satisfying [p], [replay] has passed the
      data up to and including the first that satisfies [p] and throws
      [e], and has passed all and returns when none does. *)
Theorem replay_in_append_order {T Time : Type} (name : string) :
  (∀ (w0 : Batched.World T Time) ops,
     w0 !! name = None →
     Forall (λ o, Batched.is_clear o = false) ops →
     let st := Batched.run ops (w0, Batched.mkLog name [] None) in
     Batched.isOpen st = true →
     let rows := Batched.stored name st.1 in
     ascending rows.*1 ∧
     txn_id <$> rows.*2 = Some <$> rows.*1 ∧
     (txn_data <$> rows.*2) ++ Batched.buffered_data st.2 =
       Batched.appended false ops ∧
     Batched.ledger_run ops (false, [], []) =
       (true, Batched.buffered_data st.2, txn_data <$> rows.*2) ∧
     (∀ U (cb : callback T U) (u : U),
        scans cb (txn_data <$> rows.*2) u (Batched.replay cb u st) ∧
        let noted := Batched.replay (traced cb) (u, []) st in
        Batched.replay cb u st = (noted.1.1, noted.2) ∧
        scan_outcome cb (txn_data <$> rows.*2) noted.1.2 noted.2) ∧
     ∀ p e,
       Batched.replay (stop_at p e) [] st =
         (through p (txn_data <$> rows.*2),
          if existsb p (txn_data <$> rows.*2) then Err (Thrown e) else Ok ())) ∧
  (∀ (w0 : Simple.World T Time) ops,
     w0 !! name = None →
     Forall (λ o, Simple.is_clear o = false) ops →
     let st := Simple.run ops (w0, Simple.mkLog name None) in
     Simple.isOpen st = true →
     let rows := Simple.stored name st.1 in
     ascending rows.*1 ∧
     txn_id <$> rows.*2 = Some <$> rows.*1 ∧
     txn_data <$> rows.*2 = Simple.appended false ops ∧
     (∀ U (cb : callback T U) (u : U),
        scans cb (txn_data <$> rows.*2) u (Simple.replay cb u st) ∧
        let noted := Simple.replay (traced cb) (u, []) st in
        Simple.replay cb u st = (noted.1.1, noted.2) ∧
        scan_outcome cb (txn_data <$> rows.*2) noted.1.2 noted.2) ∧
     ∀ p e,
       Simple.replay (stop_at p e) [] st =
         (through p (txn_data <$> rows.*2),
          if existsb p (txn_data <$> rows.*2) then Err (Thrown e) else Ok ())).
Proof.
  split.
  - intros w0 ops Hnew Hops st Hopen rows.
    destruct (batched_run_data ops (w0, Batched.mkLog name [] None) Hops)
      as (Hok & Hname & Hdata & Hwf); [by intros ? [=]|].
    pose proof (batched_run_ledger ops (w0, Batched.mkLog name [] None))
      as Hledger.
    cbn [fst snd Batched.dbName] in *. fold st in Hok, Hname, Hdata, Hwf, Hledger.
    assert (Batched.database name w0 = Batched.upgrade) as Hempty
      by (unfold Batched.database; by rewrite Hnew).
    destruct Hwf as [_ Hrows].
    { rewrite Hempty. split; apply store_ok_createObjectStore. }
    unfold Batched.persisted_data, Batched.stored in Hdata, Hledger.
    rewrite Hempty in Hdata, Hledger. cbn in Hdata.
    split; [apply Hrows|]. split; [by apply store_ok_ids|].
    split; [exact Hdata|]. split.
    { rewrite <- Hopen. apply Hledger. by intros ? [=]. }
    pose proof (batched_isOpen_conn st Hopen Hok) as Hdb. rewrite Hname in Hdb.
    unfold Batched.replay. destruct st as [w this]. cbn [snd] in Hdb.
    rewrite Hdb. split.
    + intros U cb u. split; [apply cursor_loop_scans | apply cursor_loop_replay].
    + intros p e. apply (cursor_loop_stop_at p e []).
  - intros w0 ops Hnew Hops st Hopen rows.
    destruct (simple_run_data ops (w0, Simple.mkLog name None) Hops)
      as (Hok & Hname & Hdata & Hwf); [by intros ? [=]|].
    cbn [fst snd Simple.dbName] in *. fold st in Hok, Hname, Hdata, Hwf.
    assert (Simple.database name w0 = Simple.upgrade) as Hempty
      by (unfold Simple.database; by rewrite Hnew).
    unfold Simple.persisted_data, Simple.stored in Hdata.
    rewrite Hempty in Hdata, Hwf. cbn in Hdata.
    specialize (Hwf store_ok_createObjectStore).
    split; [apply Hwf|]. split; [by apply store_ok_ids|].
    split; [exact Hdata|].
    pose proof (simple_isOpen_conn st Hopen Hok) as Hdb. rewrite Hname in Hdb.
    unfold Simple.replay. destruct st as [w this]. cbn [snd] in Hdb.
    rewrite Hdb. split.
    + intros U cb u. split; [apply cursor_loop_scans | apply cursor_loop_replay].
    + intros p e. apply (cursor_loop_stop_at p e []).
Qed.

(** A history with a commit that fails on its second write, a close and
    reopen with an entry buffered, a commit the store aborts, and an entry
    left in the buffer; replayed with a callback that throws on "c". And
    a history of the simple log with an append that fails. *)
Lemma replay_in_append_order_witness :
  let ops : list (Batched.op string Z) :=
    [Batched.DoOpen; Batched.DoAppend 1 "a"; Batched.DoAppend 2 "b";
     Batched.DoCommit (Batched.TxnAddFails 1) 3;
     Batched.DoCommit Batched.NoFault 4; Batched.DoAppend 5 "c";
     Batched.DoClose; Batched.DoAppend 6 "x"; Batched.DoOpen;
     Batched.DoCommit Batched.DoneRejects 7; Batched.DoAppend 8 "d";
     Batched.DoCommit Batched.NoFault 9; Batched.DoAppend 10 "e"] in
  let st := Batched.run ops (∅, Batched.mkLog "log" [] None) in
  let rows := Batched.stored "log" st.1 in
  let sops : list (Simple.op string Z) :=
    [Simple.DoOpen; Simple.DoAppend None 1 "a";
     Simple.DoAppend (Some QuotaExceededError) 2 "b";
     Simple.DoAppend None 3 "c"] in
  let sst := Simple.run sops (∅, Simple.mkLog "log" None) in
  ascending rows.*1 ∧
  (txn_data <$> rows.*2) ++ Batched.buffered_data st.2 = ["a"; "b"; "c"; "d"; "e"] ∧
  txn_data <$> rows.*2 = ["a"; "b"; "c"; "d"] ∧
  Batched.replay collect [] st = (["a"; "b"; "c"; "d"], Ok ()) ∧
  Batched.replay (stop_at (String.eqb "c") "stop") [] st =
    (["a"; "b"; "c"], Err (Thrown "stop")) ∧
  txn_data <$> (Simple.stored "log" sst.1).*2 = ["a"; "c"].
Proof.
  intros ops st rows sops sst.
  destruct (proj1 (@replay_in_append_order string Z "log") ∅ ops
              (lookup_empty "log"))
    as (Hasc & _ & Hdata & Hledger & _ & Hstop);
    [by repeat constructor|reflexivity|].
  destruct (proj2 (@replay_in_append_order string Z "log") ∅ sops
              (lookup_empty "log"))
    as (_ & _ & Hsdata & _); [by repeat constructor|reflexivity|].
  split; [exact Hasc|]. split; [exact Hdata|].
  split.
  { assert (Batched.ledger_run ops (false, [], []) =
              (true, ["e"], ["a"; "b"; "c"; "d"])) as Hl
      by (vm_compute; reflexivity).
    rewrite Hl in Hledger. exact (eq_sym (f_equal snd Hledger)). }
  split; [vm_compute; reflexivity|].
  split; [|exact Hsdata].
  etrans; [exact (Hstop (String.eqb "c") "stop")|]. vm_compute. reflexivity.
Defined.

(** A callback that throws on the third entry: [replay] throws what the
    callback threw, and the fourth entry is not passed. *)
Example replay_callback_throws :
  let st : Batched.State string Z :=
    Batched.run [Batched.DoOpen; Batched.DoAppend 1 "a"; Batched.DoAppend 2 "b";
                 Batched.DoAppend 3 "c"; Batched.DoAppend 4 "d";
                 Batched.DoCommit Batched.NoFault 5]
      (∅, Batched.mkLog "log" [] None) in
  let cb : callback string (list string) :=
    λ d seen, (seen ++ [d], if String.eqb d "c" then Some "stop" else None) in
  Batched.replay cb [] st = (["a"; "b"; "c"], Err (Thrown "stop")).
Proof. vm_compute. reflexivity. Qed.

(** * Further properties of the code *)

(** ** [commit] *)

Lemma stamp_payload {T Time} k (ts : list (Transaction T Time)) :
  payload <$> (stamp k ts).*2 = payload <$> ts.
Proof. revert k. induction ts as [|t ts IH]; intros k; simpl; [done|]. by rewrite IH. Qed.

(** X1. A [commit] on an open batched log that the store does not fail
    returns normally. It appends the buffered transactions to the stored
    ones, in the order of the buffer, under the next ids and with their
    time and data as they were buffered; it appends one commit record
    that lists exactly those ids in that order; [countTransactions]
    grows by the length of the buffer and [countCommits] by one; the
    buffer is empty afterwards and the log still open. *)
Theorem commit_persists_buffer {T Time : Type}
    (f : Batched.fault) (now : Time) (w : Batched.World T Time)
    (this : Batched.Log T Time) (conn : string) :
  Batched.db this = Some conn →
  Batched.fault_occurs f (length (Batched.buffer this)) = false →
  let d := Batched.database conn w in
  let done := Batched.commit f now (w, this) in
  let d' := Batched.database conn done.1.1 in
  let rows := stamp (keygen (Batched.txn_store d)) (Batched.buffer this) in
  let commitId := keygen (Batched.commit_store d) in
  done.2 = Ok () ∧
  records (Batched.txn_store d') = records (Batched.txn_store d) ++ rows ∧
  payload <$> rows.*2 = payload <$> Batched.buffer this ∧
  records (Batched.commit_store d') =
    records (Batched.commit_store d) ++
    [(commitId, mkCommit (Some commitId) now rows.*1)] ∧
  Batched.countTransactions done.1 =
    Ok (count (Batched.txn_store d) + Z.of_nat (length (Batched.buffer this))) ∧
  Batched.countCommits done.1 = Ok (count (Batched.commit_store d) + 1) ∧
  Batched.buffer done.1.2 = [] ∧
  Batched.db done.1.2 = Some conn.
Proof.
  destruct this as [name buf c]. cbn [Batched.db Batched.buffer].
  intros -> Hf. cbn zeta.
  rewrite (batched_commit_outcome f now w (Batched.mkLog name buf (Some conn))
             conn eq_refl).
  cbn [Batched.buffer]. rewrite Hf. cbn [fst snd].
  unfold Batched.countTransactions, Batched.countCommits, Batched.set_buffer.
  cbn [Batched.db Batched.buffer Batched.dbName].
  rewrite batched_database_insert. unfold Batched.committed.
  cbn [Batched.txn_store Batched.commit_store].
  destruct (add_all_eq buf (Batched.txn_store (Batched.database conn w)))
    as [Hids Hrows].
  rewrite Hids, Hrows, count_add_all. split; [done|]. split; [done|].
  split; [apply stamp_payload|]. split; [done|]. split; [done|].
  split; [|done]. unfold count. cbn. rewrite length_app. cbn.
  do 2 f_equal. lia.
Qed.

(** Two buffered entries on a database that already holds one
    transaction and one commit. *)
Lemma commit_persists_buffer_witness :
  let st : Batched.State string Z :=
    Batched.run [Batched.DoOpen; Batched.DoAppend 1 "a";
                 Batched.DoCommit Batched.NoFault 2;
                 Batched.DoAppend 3 "b"; Batched.DoAppend 4 "c"]
      (∅, Batched.mkLog "log" [] None) in
  let done := Batched.commit (Batched.TxnAddFails 2) 5 st in
  done.2 = Ok () ∧
  Batched.countTransactions done.1 = Ok 3 ∧
  Batched.countCommits done.1 = Ok 2 ∧
  Batched.getSeqRangeCommits 2 None done.1 =
    Ok [mkCommitInfo 2%positive 5
          [mkTransaction (Some 2%positive) 3 "b";
           mkTransaction (Some 3%positive) 4 "c"]].
Proof.
  intros st done.
  destruct (commit_persists_buffer (Batched.TxnAddFails 2) 5 st.1 st.2 "log"
              eq_refl eq_refl)
    as (Hr & _ & _ & _ & Ht & Hc & _).
  split; [exact Hr|]. split; [exact Ht|]. split; [exact Hc|].
  vm_compute. reflexivity.
Defined.

(** X2. When the store fails a [commit] on an open batched log, the
    databases and the log object, buffer included, are as before, and
    any later [commit] does what it would have done had the failed call
    not been made. The call throws the commit failure message when the
    transaction is still active in the [catch] block ([transaction(...)]
    threw, or the request of an [add] failed on its own); it throws the
    [InvalidStateError] of [tx.abort()] when the store has aborted the
    transaction (an [add] failing because of the abort, or [tx.done]
    rejecting). *)
Theorem commit_failure_then_retry {T Time : Type}
    (f : Batched.fault) (now : Time) (w : Batched.World T Time)
    (this : Batched.Log T Time) (conn : string) :
  Batched.db this = Some conn →
  Batched.fault_occurs f (length (Batched.buffer this)) = true →
  (Batched.commit f now (w, this)).1 = (w, this) ∧
  (Batched.commit f now (w, this)).2 =
    Err (match f with
         | Batched.DoneRejects | Batched.TxnAddAborted _
         | Batched.CommitAddAborted => DOMException InvalidStateError
         | _ => Error FAILED_TO_COMMIT_TRANSACTIONS_MESSAGE
         end) ∧
  ∀ g now',
    Batched.commit g now' (Batched.commit f now (w, this)).1 =
    Batched.commit g now' (w, this).
Proof.
  intros Hdb Hf.
  rewrite (batched_commit_outcome f now w this conn Hdb), Hf. cbn [fst snd].
  split; [done|]. split; [|done]. by destruct f.
Qed.

(** The second of two writes fails, once on its own and once because the
    store has aborted the transaction; the retry stores both entries
    once. *)
Lemma commit_failure_then_retry_witness :
  let st : Batched.State string Z :=
    Batched.run [Batched.DoOpen; Batched.DoAppend 1 "a"; Batched.DoAppend 2 "b"]
      (∅, Batched.mkLog "log" [] None) in
  let failed := Batched.commit (Batched.TxnAddFails 1) 3 st in
  let aborted := Batched.commit (Batched.TxnAddAborted 1) 3 st in
  failed = (st, Err (Error FAILED_TO_COMMIT_TRANSACTIONS_MESSAGE)) ∧
  aborted = (st, Err (DOMException InvalidStateError)) ∧
  Batched.countTransactions (Batched.commit Batched.NoFault 4 failed.1).1 = Ok 2 ∧
  Batched.countTransactions (Batched.commit Batched.NoFault 4 aborted.1).1 = Ok 2.
Proof.
  intros st failed aborted.
  destruct (commit_failure_then_retry (Batched.TxnAddFails 1) 3 st.1 st.2 "log"
              eq_refl eq_refl) as (Hst1 & Hr1 & Hretry1).
  destruct (commit_failure_then_retry (Batched.TxnAddAborted 1) 3 st.1 st.2 "log"
              eq_refl eq_refl) as (Hst2 & Hr2 & Hretry2).
  split; [exact (f_equal2 pair Hst1 Hr1)|].
  split; [exact (f_equal2 pair Hst2 Hr2)|].
  split.
  - change failed with (Batched.commit (Batched.TxnAddFails 1) 3 (st.1, st.2)).
    rewrite (Hretry1 Batched.NoFault 4). vm_compute. reflexivity.
  - change aborted with (Batched.commit (Batched.TxnAddAborted 1) 3 (st.1, st.2)).
    rewrite (Hretry2 Batched.NoFault 4). vm_compute. reflexivity.
Defined.

(** ** [append] of the batched log *)

(** X3. [append] on an open batched log returns normally, adds
    [{time, data}] without an id at the end of the buffer, and changes
    nothing else: the databases are as before, and both counts, [replay]
    with any callback and both range queries give what they gave before
    the call. *)
Theorem batched_append_only_buffers {T Time : Type}
    (now : Time) (data : T) (w : Batched.World T Time)
    (this : Batched.Log T Time) (conn : string) :
  Batched.db this = Some conn →
  let st := (w, this) in
  let done := Batched.append now data st in
  done.2 = Ok () ∧
  done.1.1 = w ∧
  Batched.buffer done.1.2 = Batched.buffer this ++ [mkTransaction None now data] ∧
  Batched.db done.1.2 = Some conn ∧
  Batched.dbName done.1.2 = Batched.dbName this ∧
  Batched.countTransactions done.1 = Batched.countTransactions st ∧
  Batched.countCommits done.1 = Batched.countCommits st ∧
  (∀ U (cb : callback T U) u, Batched.replay cb u done.1 = Batched.replay cb u st) ∧
  (∀ a b, Batched.getSeqRangeTransactions a b done.1 =
          Batched.getSeqRangeTransactions a b st) ∧
  (∀ a b, Batched.getSeqRangeCommits a b done.1 =
          Batched.getSeqRangeCommits a b st).
Proof.
  destruct this as [name buf c]. cbn [Batched.db]. intros ->.
  cbn. repeat split.
Qed.

(** An entry appended after a commit is not counted. *)
Lemma batched_append_only_buffers_witness :
  let st : Batched.State string Z :=
    Batched.run [Batched.DoOpen; Batched.DoAppend 1 "a";
                 Batched.DoCommit Batched.NoFault 2]
      (∅, Batched.mkLog "log" [] None) in
  let done := Batched.append 3 "b" st in
  done.2 = Ok () ∧
  Batched.buffer done.1.2 = [mkTransaction None 3 "b"] ∧
  Batched.countTransactions done.1 = Ok 1.
Proof.
  intros st done.
  destruct (batched_append_only_buffers 3 "b" st.1 st.2 "log" eq_refl)
    as (Hr & _ & Hbuf & _ & _ & Hcount & _).
  split; [exact Hr|]. split; [exact Hbuf|].
  change done with (Batched.append 3 "b" (st.1, st.2)). rewrite Hcount.
  vm_compute. reflexivity.
Defined.

(** ** What every history keeps *)

Section GaplessFacts.
Context {V : Type} `{!KeyPath V}.

Lemma stamp_keys k (vs : list V) :
  (stamp k vs).*1 = Pos.of_nat <$> seq (Pos.to_nat k) (length vs).
Proof.
  revert k. induction vs as [|v vs IH]; intros k; [done|].
  cbn [stamp length seq]. rewrite !fmap_cons, IH. cbn [fst].
  by rewrite Pos2Nat.id, Pos2Nat.inj_succ.
Qed.

Lemma keygen_add_all (vs : list V) (s : ObjectStore V) :
  Pos.to_nat (keygen (add_all vs s).2) = (Pos.to_nat (keygen s) + length vs)%nat.
Proof.
  revert s. induction vs as [|v vs IH]; intros s.
  - simpl. lia.
  - rewrite add_all_cons. cbn [snd]. rewrite IH. cbn [add snd keygen length].
    rewrite Pos2Nat.inj_succ. lia.
Qed.

Lemma gapless_createObjectStore : gapless (createObjectStore (V:=V)).
Proof. by split. Qed.

Lemma gapless_add_all (vs : list V) (s : ObjectStore V) :
  gapless s → gapless (add_all vs s).2.
Proof.
  intros [Hkeys Hgen]. split.
  - destruct (add_all_eq vs s) as [_ ->].
    rewrite fmap_app, length_app, length_stamp, seq_app, fmap_app.
    by rewrite Hkeys at 1; rewrite stamp_keys, Hgen.
  - rewrite keygen_add_all, Hgen. destruct (add_all_eq vs s) as [_ ->].
    rewrite length_app, length_stamp. lia.
Qed.

Lemma gapless_add (v : V) (s : ObjectStore V) :
  gapless s → gapless (add v s).2.
Proof.
  intros Hs. pose proof (gapless_add_all [v] s Hs) as H.
  by rewrite add_all_cons in H.
Qed.
End GaplessFacts.

Section HistoryFacts.
Context {T Time : Type}.
Implicit Types (w : Batched.World T Time) (this : Batched.Log T Time)
  (st : Batched.State T Time) (d : Batched.Database T Time)
  (o : Batched.op T Time) (ops : list (Batched.op T Time)).

Lemma batched_invariant_upgrade : batched_invariant (Batched.upgrade (T:=T) (Time:=Time)).
Proof.
  split.
  - split; apply store_ok_createObjectStore.
  - apply gapless_createObjectStore.
  - apply gapless_createObjectStore.
  - done.
Qed.

Lemma batched_invariant_committed now (buf : list (Transaction T Time)) d :
  batched_invariant d → batched_invariant (Batched.committed now buf d).
Proof.
  intros [Hok Hc Ht Hp]. split.
  - by apply batched_committed_ok.
  - unfold Batched.committed. cbn [Batched.commit_store]. by apply gapless_add.
  - unfold Batched.committed. cbn [Batched.txn_store]. by apply gapless_add_all.
  - unfold partitioned, Batched.committed in *.
    cbn [Batched.commit_store Batched.txn_store add snd records].
    destruct (add_all_eq buf (Batched.txn_store d)) as [-> ->].
    rewrite !fmap_app, concat_app, Hp. cbn. by rewrite app_nil_r.
Qed.

Lemma batched_database_deleteDB name w :
  Batched.database name (Batched.deleteDB name w) = Batched.upgrade.
Proof.
  unfold Batched.database, Batched.deleteDB, Batched.World in *.
  by rewrite lookup_delete_eq.
Qed.

Lemma batched_step_invariant o st :
  Batched.log_ok st.2 →
  batched_invariant (Batched.database (Batched.dbName st.2) st.1) →
  batched_invariant
    (Batched.database (Batched.dbName st.2) (Batched.step o st).1.1).
Proof.
  destruct st as [w this]. cbn [fst snd]. intros Hok Hinv.
  destruct o as [| | |now data|f now]; cbn [Batched.step].
  - destruct this as [name buf [conn|]]; [done|]. simpl.
    pose proof (batched_database_openDB name name w) as Hd.
    destruct (Batched.openDB name w) as [w' c]. simpl in *. by rewrite Hd.
  - by destruct this as [name buf [conn|]].
  - destruct this as [name buf [conn|]]; [done|]. simpl.
    rewrite batched_database_deleteDB. apply batched_invariant_upgrade.
  - by destruct this as [name buf [conn|]].
  - destruct (Batched.db this) as [conn|] eqn:E.
    + rewrite (batched_commit_outcome f now w this conn E).
      rewrite <- (Hok conn E) in *.
      destruct (Batched.fault_occurs f _); [done|]. cbn [fst].
      rewrite batched_database_insert. by apply batched_invariant_committed.
    + unfold Batched.commit. by rewrite E.
Qed.
End HistoryFacts.

Lemma batched_run_invariant {T Time : Type}
    (ops : list (Batched.op T Time)) (w : Batched.World T Time)
    (this : Batched.Log T Time) :
  Batched.log_ok this →
  batched_invariant (Batched.database (Batched.dbName this) w) →
  Batched.log_ok (Batched.run ops (w, this)).2 ∧
  Batched.dbName (Batched.run ops (w, this)).2 = Batched.dbName this ∧
  batched_invariant
    (Batched.database (Batched.dbName this) (Batched.run ops (w, this)).1).
Proof.
  revert w this. induction ops as [|o ops IH]; intros w this Hok Hinv; [done|].
  cbn [Batched.run foldl].
  fold (Batched.run ops (Batched.step o (w, this)).1).
  destruct (batched_step_log_ok o (w, this) Hok) as [Hok' Hname'].
  pose proof (batched_step_invariant o (w, this) Hok Hinv) as Hinv'.
  cbn [fst snd] in *. destruct (Batched.step o (w, this)).1 as [w' this'].
  cbn [fst snd] in *. rewrite <- Hname' in Hinv'.
  destruct (IH w' this' Hok' Hinv') as (H1 & H2 & H3).
  rewrite Hname' in *. done.
Qed.

(** X4. Whatever a batched log is made to do - any calls of [open],
    [close], [clear], [append] and [commit], in any order, failing ones
    and store failures included - the database of its name stays as
    follows, if it was so at the start (as a database not yet created
    is): in both stores the ids are 1, 2, ... without a gap, in ascending
    order, each record carrying its id, and the generator stands at the
    next number; and the lists of the stored commits, one after the
    other, are exactly the ids of the stored transactions, so every
    transaction is listed by one commit and every id listed resolves. *)
Theorem batched_history_invariant {T Time : Type}
    (ops : list (Batched.op T Time)) (w : Batched.World T Time)
    (this : Batched.Log T Time) :
  Batched.log_ok this →
  batched_invariant (Batched.database (Batched.dbName this) w) →
  let st := Batched.run ops (w, this) in
  Batched.log_ok st.2 ∧
  Batched.dbName st.2 = Batched.dbName this ∧
  batched_invariant (Batched.database (Batched.dbName this) st.1).
Proof. apply batched_run_invariant. Qed.

(** A history with failed commits, a clear in the middle and entries
    appended before it. *)
Lemma batched_history_invariant_witness :
  let ops : list (Batched.op string Z) :=
    [Batched.DoOpen; Batched.DoAppend 1 "a"; Batched.DoCommit Batched.NoFault 2;
     Batched.DoAppend 3 "b"; Batched.DoCommit Batched.CommitAddFails 4;
     Batched.DoClose; Batched.DoClear; Batched.DoOpen;
     Batched.DoCommit Batched.DoneRejects 5; Batched.DoCommit Batched.NoFault 6;
     Batched.DoAppend 7 "c"; Batched.DoAppend 8 "d";
     Batched.DoCommit Batched.NoFault 9] in
  let st := Batched.run ops (∅, Batched.mkLog "log" [] None) in
  batched_invariant (Batched.database "log" st.1) ∧
  (records (Batched.txn_store (Batched.database "log" st.1))).*1 =
    [1%positive; 2%positive; 3%positive] ∧
  commit_transactions <$> (records (Batched.commit_store (Batched.database "log" st.1))).*2 =
    [[1%positive]; [2%positive; 3%positive]].
Proof.
  intros ops st.
  destruct (batched_history_invariant ops ∅ (Batched.mkLog "log" [] None))
    as (_ & _ & Hinv).
  - by intros ? [=].
  - apply batched_invariant_upgrade.
  - split; [exact Hinv|]. split; vm_compute; reflexivity.
Defined.

Section SimpleHistoryFacts.
Context {T Time : Type}.
Implicit Types (w : Simple.World T Time) (this : Simple.Log)
  (st : Simple.State T Time) (d : Simple.Database T Time)
  (o : Simple.op T Time) (ops : list (Simple.op T Time)).

Lemma simple_invariant_upgrade : simple_invariant (Simple.upgrade (T:=T) (Time:=Time)).
Proof. split; [apply store_ok_createObjectStore | apply gapless_createObjectStore]. Qed.

Lemma simple_database_deleteDB name w :
  Simple.database name (Simple.deleteDB name w) = Simple.upgrade.
Proof.
  unfold Simple.database, Simple.deleteDB, Simple.World in *.
  by rewrite lookup_delete_eq.
Qed.

Lemma simple_step_invariant o st :
  Simple.log_ok st.2 →
  simple_invariant (Simple.database (Simple.dbName st.2) st.1) →
  simple_invariant (Simple.database (Simple.dbName st.2) (Simple.step o st).1.1).
Proof.
  destruct st as [w [name [conn|]]]; cbn [fst snd Simple.dbName];
    intros Hok Hinv; destruct o as [| | |[e|] now data]; try done; simpl.
  - pose proof (Hok conn eq_refl) as Hc. simpl in Hc. subst conn.
    rewrite simple_database_insert. destruct Hinv as [Hs Hg]. split.
    + exact (store_ok_add Transaction_keyPath_inject
               (mkTransaction None now data) _ Hs).
    + exact (gapless_add (mkTransaction None now data) _ Hg).
  - pose proof (simple_database_openDB name w) as Hd.
    destruct (Simple.openDB name w) as [w' c]. simpl in *. by rewrite Hd.
  - rewrite simple_database_deleteDB. apply simple_invariant_upgrade.
Qed.
End SimpleHistoryFacts.

Lemma simple_run_invariant {T Time : Type}
    (ops : list (Simple.op T Time)) (w : Simple.World T Time)
    (this : Simple.Log) :
  Simple.log_ok this →
  simple_invariant (Simple.database (Simple.dbName this) w) →
  Simple.log_ok (Simple.run ops (w, this)).2 ∧
  Simple.dbName (Simple.run ops (w, this)).2 = Simple.dbName this ∧
  simple_invariant
    (Simple.database (Simple.dbName this) (Simple.run ops (w, this)).1).
Proof.
  revert w this. induction ops as [|o ops IH]; intros w this Hok Hinv; [done|].
  cbn [Simple.run foldl].
  fold (Simple.run ops (Simple.step o (w, this)).1).
  destruct (simple_step_log_ok o (w, this) Hok) as [Hok' Hname'].
  pose proof (simple_step_invariant o (w, this) Hok Hinv) as Hinv'.
  cbn [fst snd] in *. destruct (Simple.step o (w, this)).1 as [w' this'].
  cbn [fst snd] in *. rewrite <- Hname' in Hinv'.
  destruct (IH w' this' Hok' Hinv') as (H1 & H2 & H3).
  rewrite Hname' in *. done.
Qed.

(** X5. Whatever a simple log is made to do - any calls of [open],
    [close], [clear] and [append], in any order, failing ones and store
    failures included - the store of the database of its name keeps ids
    1, 2, ... without a gap, in ascending order, each record carrying its
    id, with the generator at the next number, if it was so at the start
    (as a database not yet created is). *)
Theorem simple_history_invariant {T Time : Type}
    (ops : list (Simple.op T Time)) (w : Simple.World T Time)
    (this : Simple.Log) :
  Simple.log_ok this →
  simple_invariant (Simple.database (Simple.dbName this) w) →
  let st := Simple.run ops (w, this) in
  Simple.log_ok st.2 ∧
  Simple.dbName st.2 = Simple.dbName this ∧
  simple_invariant (Simple.database (Simple.dbName this) st.1).
Proof. apply simple_run_invariant. Qed.

(** A history with a failed append and a clear in the middle. *)
Lemma simple_history_invariant_witness :
  let ops : list (Simple.op string Z) :=
    [Simple.DoOpen; Simple.DoAppend None 1 "a"; Simple.DoClose; Simple.DoClear;
     Simple.DoOpen; Simple.DoAppend None 2 "b";
     Simple.DoAppend (Some UnknownError) 3 "c"; Simple.DoAppend None 4 "d"] in
  let st := Simple.run ops (∅, Simple.mkLog "log" None) in
  simple_invariant (Simple.database "log" st.1) ∧
  Simple.getSeqRangeTransactions 1 None st =
    Ok [mkTransaction (Some 1%positive) 2 "b"; mkTransaction (Some 2%positive) 4 "d"].
Proof.
  intros ops st.
  destruct (simple_history_invariant ops ∅ (Simple.mkLog "log" None))
    as (_ & _ & Hinv).
  - by intros ? [=].
  - apply simple_invariant_upgrade.
  - split; [exact Hinv|]. vm_compute. reflexivity.
Defined.

(** ** Commits and their transactions *)

Section PartitionFacts.
Context {T Time : Type}.
Implicit Types (d : Batched.Database T Time)
  (found : list (positive * Commit Time))
  (rows : list (positive * Transaction T Time)).

Lemma filter_all {A} (P : A → Prop) `{!∀ x, Decision (P x)} (l : list A) :
  Forall P l → filter P l = l.
Proof.
  induction 1 as [|x l Hx _ IH]; [done|].
  rewrite filter_cons. destruct (decide (P x)); [|done]. by rewrite IH.
Qed.

Lemma elem_of_concat_2 {A} (x : A) (l : list A) (ls : list (list A)) :
  x ∈ l → l ∈ ls → x ∈ concat ls.
Proof.
  intros Hx. induction 1; cbn [concat]; apply elem_of_app; auto.
Qed.

(** The range from 1 on holds every key. *)
Lemma openCursor_from_1 {V} (s : ObjectStore V) :
  openCursor (Some (lowerBound 1)) s = records s.
Proof.
  unfold openCursor. apply filter_all, Forall_forall. intros [k v] _.
  simpl. apply Z.leb_le. lia.
Qed.

Lemma partitioned_resolvable d found :
  partitioned d →
  (∀ kc, kc ∈ found → kc ∈ records (Batched.commit_store d)) →
  Batched.resolvable d found.
Proof.
  intros Hp Hsub. apply Forall_forall. intros kc Hkc.
  apply Forall_forall. intros tid Htid. rewrite <- Hp.
  apply (elem_of_concat_2 _ (commit_transactions kc.2)); [done|].
  apply list_elem_of_fmap. exists kc.2. split; [done|].
  apply list_elem_of_fmap. exists kc. split; [done|]. by apply Hsub.
Qed.

Lemma resolved_ids d found (infos : list (CommitInfo T Time)) :
  Forall2 (Batched.resolved d) found infos →
  info_id <$> infos = found.*1 ∧
  info_time <$> infos = commit_time <$> found.*2.
Proof.
  induction 1 as [|kc info found infos (Hid & Htime & _) _ [IH1 IH2]]; [done|].
  rewrite !fmap_cons. by rewrite Hid, Htime, IH1, IH2.
Qed.

Lemma resolved_concat d found (infos : list (CommitInfo T Time)) :
  Forall2 (Batched.resolved d) found infos →
  Forall2 (λ tid t, (tid, t) ∈ records (Batched.txn_store d))
    (concat (commit_transactions <$> found.*2))
    (concat (info_transactions <$> infos)).
Proof.
  induction 1 as [|kc info found infos (_ & _ & Hts) _ IH]; [constructor|].
  rewrite !fmap_cons. cbn [concat]. by apply Forall2_app.
Qed.

(** Looking the keys of a store up, in order, gives its values. *)
Lemma lookup_all_keys rows (ts : list (Transaction T Time)) :
  ascending rows.*1 →
  Forall2 (λ tid t, (tid, t) ∈ rows) rows.*1 ts →
  ts = rows.*2.
Proof.
  intros Hasc.
  assert (∀ l : list (positive * Transaction T Time),
            (∀ kv, kv ∈ l → kv ∈ rows) →
            ∀ ts, Forall2 (λ tid t, (tid, t) ∈ rows) l.*1 ts → ts = l.*2) as H.
  { induction l as [|[k v] l IH]; intros Hsub ts' Hall.
    - by inversion Hall.
    - rewrite fmap_cons in Hall.
      inversion Hall as [|? t ? ts'' Ht Hall']; subst. rewrite fmap_cons.
      f_equal.
      + apply (get_record_elem_of _ _ _ Hasc) in Ht.
        assert ((k, v) ∈ rows) as Hv by (apply Hsub; left).
        apply (get_record_elem_of _ _ _ Hasc) in Hv. simpl in *. congruence.
      + apply IH; [|done]. intros kv Hkv. apply Hsub. by right. }
  by apply H.
Qed.
End PartitionFacts.

(** X6. On an open batched log whose database is as every history keeps
    it: no call of [getSeqRangeCommits], whatever its arguments, throws
    the transaction-not-found error; and [getSeqRangeCommits(1)] returns
    one [CommitInfo] per stored commit, with the ids and times of the
    commits in order, whose transaction lists, one after the other, are
    exactly what [getSeqRangeTransactions(1)] returns - every stored
    transaction, in the order of the ids. *)
Theorem commits_flatten_to_transactions {T Time : Type}
    (w : Batched.World T Time) (this : Batched.Log T Time) (conn : string) :
  Batched.db this = Some conn →
  Batched.database_ok (Batched.database conn w) →
  partitioned (Batched.database conn w) →
  (∀ a b, Batched.getSeqRangeCommits a b (w, this) ≠
            Err (Error TRANSACTION_NOT_FOUND)) ∧
  ∃ infos,
    Batched.getSeqRangeCommits 1 None (w, this) = Ok infos ∧
    info_id <$> infos =
      (records (Batched.commit_store (Batched.database conn w))).*1 ∧
    info_time <$> infos =
      commit_time <$> (records (Batched.commit_store (Batched.database conn w))).*2 ∧
    Batched.getSeqRangeTransactions 1 None (w, this) =
      Ok (concat (info_transactions <$> infos)).
Proof.
  intros Hdb [Hc Ht] Hp. split.
  - intros a b. unfold Batched.getSeqRangeCommits. rewrite Hdb.
    destruct (a <? 1); [done|].
    destruct (Batched.key_range a b) as [r|e] eqn:Hr; cbn.
    + match goal with |- for_each ?body ?found ≠ _ =>
        destruct (commit_loop_result (Batched.database conn w) found) as [Hres _]
      end.
      destruct Hres as (infos & Hinfos & _).
      { apply partitioned_resolvable; [done|]. intros kc Hkc.
        by apply elem_of_openCursor in Hkc as [? _]. }
      cbn in Hinfos. by rewrite Hinfos.
    + unfold Batched.key_range, IDBKeyRange_bound in Hr.
      destruct (truthy b); [|done]. destruct (_ <? _); [|done].
      by injection Hr as <-.
  - unfold Batched.getSeqRangeCommits, Batched.getSeqRangeTransactions,
      Batched.key_range.
    rewrite Hdb. change (1 <? 1) with false. cbn [truthy mbind result_bind].
    rewrite !openCursor_from_1.
    destruct (commit_loop_result (Batched.database conn w)
                (records (Batched.commit_store (Batched.database conn w))))
      as [Hres _].
    destruct Hres as (infos & Hinfos & Hall).
    { by apply partitioned_resolvable. }
    exists infos. split; [exact Hinfos|].
    destruct (resolved_ids _ _ _ Hall) as [Hids Htimes].
    split; [done|]. split; [done|]. f_equal. symmetry.
    apply lookup_all_keys; [apply Ht|].
    rewrite <- Hp. by apply resolved_concat.
Qed.

(** Three commits, the second of an empty buffer. *)
Lemma commits_flatten_to_transactions_witness :
  let st : Batched.State string Z :=
    Batched.run [Batched.DoOpen; Batched.DoAppend 1 "a"; Batched.DoAppend 2 "b";
                 Batched.DoCommit Batched.NoFault 3;
                 Batched.DoCommit Batched.NoFault 4; Batched.DoAppend 5 "c";
                 Batched.DoCommit Batched.NoFault 6]
      (∅, Batched.mkLog "log" [] None) in
  ∃ infos,
    Batched.getSeqRangeCommits 1 None st = Ok infos ∧
    info_id <$> infos = [1%positive; 2%positive; 3%positive] ∧
    Batched.getSeqRangeTransactions 1 None st =
      Ok (concat (info_transactions <$> infos)).
Proof.
  intros st.
  destruct (batched_run_invariant
              [Batched.DoOpen; Batched.DoAppend 1 "a"; Batched.DoAppend 2 "b";
               Batched.DoCommit Batched.NoFault 3;
               Batched.DoCommit Batched.NoFault 4; Batched.DoAppend 5 "c";
               Batched.DoCommit Batched.NoFault 6]
              ∅ (Batched.mkLog "log" [] None))
    as (_ & _ & [Hok _ _ Hp]); [by intros ? [=] | apply batched_invariant_upgrade |].
  destruct (commits_flatten_to_transactions st.1 st.2 "log" eq_refl Hok Hp)
    as (_ & infos & Hinfos & Hids & _ & Hflat).
  exists infos. split; [exact Hinfos|]. split; [exact Hids | exact Hflat].
Defined.

(** ** The queries side by side *)

(** X7. On an open log of either variant, [getSeqRangeTransactions(1)]
    returns every stored transaction; [countTransactions] is their
    number; and [replay] passes their data, in that order, to a callback
    that does not throw. *)
Theorem queries_agree {T Time : Type} (conn : string) :
  (∀ (w : Batched.World T Time) this,
     Batched.db this = Some conn →
     ∃ ts, Batched.getSeqRangeTransactions 1 None (w, this) = Ok ts ∧
           ts = (Batched.stored conn w).*2 ∧
           Batched.countTransactions (w, this) = Ok (Z.of_nat (length ts)) ∧
           Batched.replay collect [] (w, this) = (txn_data <$> ts, Ok ())) ∧
  (∀ (w : Simple.World T Time) this,
     Simple.db this = Some conn →
     ∃ ts, Simple.getSeqRangeTransactions 1 None (w, this) = Ok ts ∧
           ts = (Simple.stored conn w).*2 ∧
           Simple.countTransactions (w, this) = Ok (Z.of_nat (length ts)) ∧
           Simple.replay collect [] (w, this) = (txn_data <$> ts, Ok ())).
Proof.
  split; intros w this Hdb; eexists; (split; [|split; [reflexivity|split]]).
  - unfold Batched.getSeqRangeTransactions, Batched.key_range. rewrite Hdb.
    cbn [truthy mbind result_bind]. by rewrite openCursor_from_1.
  - unfold Batched.countTransactions, count, Batched.stored. rewrite Hdb.
    by rewrite !length_fmap.
  - unfold Batched.replay. rewrite Hdb. cbn [openCursor].
    by rewrite cursor_loop_collect.
  - unfold Simple.getSeqRangeTransactions, Simple.key_range. rewrite Hdb.
    cbn [truthy mbind result_bind]. by rewrite openCursor_from_1.
  - unfold Simple.countTransactions, count, Simple.stored. rewrite Hdb.
    by rewrite !length_fmap.
  - unfold Simple.replay. rewrite Hdb. cbn [openCursor].
    by rewrite cursor_loop_collect.
Qed.

(** A simple log holding two transactions. *)
Lemma queries_agree_witness :
  let st : Simple.State string Z :=
    Simple.run [Simple.DoOpen; Simple.DoAppend None 1 "a"; Simple.DoAppend None 2 "b"]
      (∅, Simple.mkLog "log" None) in
  ∃ ts, Simple.getSeqRangeTransactions 1 None st = Ok ts ∧
        Simple.countTransactions st = Ok 2 ∧
        Simple.replay collect [] st = (["a"; "b"], Ok ()).
Proof.
  intros st.
  destruct (proj2 (@queries_agree string Z "log") st.1 st.2 eq_refl)
    as (ts & Hts & Hstored & Hcount & Hreplay).
  exists ts. split; [exact Hts|]. subst ts. split; [exact Hcount | exact Hreplay].
Defined.

(** ** Range queries next to each other *)

Section SplitFacts.
Context {V : Type}.
Implicit Types (rows : list (positive * V)).

Lemma filter_split (P1 P2 P3 : positive * V → Prop)
    `{!∀ x, Decision (P1 x)} `{!∀ x, Decision (P2 x)} `{!∀ x, Decision (P3 x)}
    rows :
  ascending rows.*1 →
  (∀ x, P3 x ↔ P1 x ∨ P2 x) →
  (∀ x y, P1 x → P2 y → (x.1 < y.1)%positive) →
  filter P1 rows ++ filter P2 rows = filter P3 rows.
Proof.
  intros Hasc Hor Hlt12. unfold ascending in Hasc.
  induction rows as [|x rows IH]; [done|].
  rewrite fmap_cons in Hasc. apply StronglySorted_cons in Hasc as [Hlt Hasc].
  specialize (IH Hasc). rewrite !filter_cons.
  destruct (decide (P1 x)) as [Hx1|Hx1].
  - destruct (decide (P2 x)) as [Hx2|Hx2];
      [specialize (Hlt12 x x Hx1 Hx2); lia|].
    destruct (decide (P3 x)) as [_|Hn]; [|by destruct Hn; apply Hor; left].
    by rewrite <- IH.
  - destruct (decide (P2 x)) as [Hx2|Hx2].
    + destruct (decide (P3 x)) as [_|Hn]; [|by destruct Hn; apply Hor; right].
      assert (filter P1 rows = []) as Hnil.
      { destruct (filter P1 rows) as [|y ys] eqn:E; [done|]. exfalso.
        assert (y ∈ filter P1 rows) as Hy by (rewrite E; left).
        apply list_elem_of_filter in Hy as [Hy1 Hy].
        specialize (Hlt12 y x Hy1 Hx2). rewrite Forall_forall in Hlt.
        assert (x.1 < y.1)%positive; [|lia].
        apply Hlt, list_elem_of_fmap. by exists y. }
      rewrite Hnil in *. simpl in *. by rewrite IH.
    + destruct (decide (P3 x)) as [Hx3|_]; [|done].
      apply Hor in Hx3 as [|]; done.
Qed.
End SplitFacts.

Lemma openCursor_split {V} `{!KeyPath V} (s : ObjectStore V) r1 r2 r3 a b c :
  store_ok s →
  (∀ k, includes r1 k = true ↔ in_range a (Some b) k) →
  (∀ k, includes r2 k = true ↔ in_range (b + 1) c k) →
  (∀ k, includes r3 k = true ↔ in_range a c k) →
  a ≤ b →
  match c with Some c' => b < c' | None => True end →
  openCursor (Some r1) s ++ openCursor (Some r2) s = openCursor (Some r3) s.
Proof.
  intros [Hasc _ _] H1 H2 H3 Hab Hbc. unfold openCursor.
  apply filter_split; [done| |].
  - intros [k v]. cbn [fst]. rewrite H1, H2, H3. unfold in_range.
    destruct c as [c'|]; lia.
  - intros [k v] [k' v']. cbn [fst]. rewrite H1, H2. unfold in_range.
    lia.
Qed.

(** X8. On an open log of either variant whose store is in order, for
    [1 <= a <= b] and an end [c] that is left out or above [b]:
    [getSeqRangeTransactions(a, b)] followed by
    [getSeqRangeTransactions(b + 1, c)] is [getSeqRangeTransactions(a, c)].
    Reading a range in two pieces loses and repeats nothing. *)
Theorem range_queries_join {T Time : Type} (a b : Z) (c : option Z) :
  1 ≤ a → a ≤ b →
  match c with Some c' => b < c' | None => True end →
  (∀ (w : Batched.World T Time) this conn,
     Batched.db this = Some conn →
     store_ok (Batched.txn_store (Batched.database conn w)) →
     ∃ first rest,
       Batched.getSeqRangeTransactions a (Some b) (w, this) = Ok first ∧
       Batched.getSeqRangeTransactions (b + 1) c (w, this) = Ok rest ∧
       Batched.getSeqRangeTransactions a c (w, this) = Ok (first ++ rest)) ∧
  (∀ (w : Simple.World T Time) this conn,
     Simple.db this = Some conn →
     store_ok (Simple.simpletxn (Simple.database conn w)) →
     ∃ first rest,
       Simple.getSeqRangeTransactions a (Some b) (w, this) = Ok first ∧
       Simple.getSeqRangeTransactions (b + 1) c (w, this) = Ok rest ∧
       Simple.getSeqRangeTransactions a c (w, this) = Ok (first ++ rest)).
Proof.
  intros Ha Hab Hbc.
  destruct (key_range_valid a (Some b) Ha Hab) as (r1 & Hb1 & Hs1 & H1).
  destruct (key_range_valid (b + 1) c) as (r2 & Hb2 & Hs2 & H2);
    [lia | destruct c; lia |].
  destruct (key_range_valid a c Ha) as (r3 & Hb3 & Hs3 & H3);
    [destruct c; lia|].
  split; intros w this conn Hdb Hok.
  - unfold Batched.getSeqRangeTransactions. rewrite Hdb, Hb1, Hb2, Hb3.
    do 2 eexists. split; [reflexivity|]. split; [reflexivity|].
    cbn [mbind result_bind]. rewrite <- fmap_app.
    by rewrite (openCursor_split _ r1 r2 r3 a b c).
  - unfold Simple.getSeqRangeTransactions. rewrite Hdb, Hs1, Hs2, Hs3.
    do 2 eexists. split; [reflexivity|]. split; [reflexivity|].
    cbn [mbind result_bind]. rewrite <- fmap_app.
    by rewrite (openCursor_split _ r1 r2 r3 a b c).
Qed.

(** Four transactions read as ids 1 to 2 and ids from 3 on. *)
Lemma range_queries_join_witness :
  let st : Batched.State string Z :=
    Batched.run [Batched.DoOpen; Batched.DoAppend 1 "a"; Batched.DoAppend 2 "b";
                 Batched.DoAppend 3 "c"; Batched.DoAppend 4 "d";
                 Batched.DoCommit Batched.NoFault 5]
      (∅, Batched.mkLog "log" [] None) in
  ∃ first rest,
    Batched.getSeqRangeTransactions 1 (Some 2) st = Ok first ∧
    Batched.getSeqRangeTransactions 3 None st = Ok rest ∧
    Batched.getSeqRangeTransactions 1 None st = Ok (first ++ rest) ∧
    length first = 2%nat ∧ length rest = 2%nat.
Proof.
  intros st.
  assert (store_ok (Batched.txn_store (Batched.database "log" st.1))) as Hok.
  { vm_compute Batched.database. solve_store_ok. }
  destruct (proj1 (@range_queries_join string Z 1 2 None
                     ltac:(lia) ltac:(lia) I) st.1 st.2 "log" eq_refl Hok)
    as (first & rest & Hfirst & Hrest & Hall).
  exists first, rest. split; [exact Hfirst|]. split; [exact Hrest|].
  split; [exact Hall|].
  vm_compute in Hfirst, Hrest.
  injection Hfirst as <-. injection Hrest as <-. by split.
Defined.

(** X9. On an open log of either variant, a [finishId] that is not 0 and
    is below [startId] makes [getSeqRangeTransactions] throw the
    [DataError] of [IDBKeyRange.bound]; [getSeqRangeCommits] does the
    same when [startId] is at least 1. Such a call never returns an empty
    list. *)
Theorem range_below_start_throws {T Time : Type} (a b : Z) (conn : string) :
  b ≠ 0 → b < a →
  (∀ (w : Batched.World T Time) this,
     Batched.db this = Some conn →
     Batched.getSeqRangeTransactions a (Some b) (w, this) =
       Err (DOMException DataError) ∧
     (1 ≤ a →
      Batched.getSeqRangeCommits a (Some b) (w, this) =
        Err (DOMException DataError))) ∧
  (∀ (w : Simple.World T Time) this,
     Simple.db this = Some conn →
     Simple.getSeqRangeTransactions a (Some b) (w, this) =
       Err (DOMException DataError)).
Proof.
  intros Hb Hlt. destruct (key_range_DataError a b Hb Hlt) as [HB HS].
  split; intros w this Hdb.
  - unfold Batched.getSeqRangeTransactions, Batched.getSeqRangeCommits.
    rewrite Hdb, HB. split; [done|]. intros Ha.
    by destruct (Z.ltb_spec a 1); [exfalso; lia|].
  - unfold Simple.getSeqRangeTransactions. by rewrite Hdb, HS.
Qed.

(** The range from 3 to 2 on an open log. *)
Lemma range_below_start_throws_witness :
  let st : Simple.State string Z :=
    Simple.run [Simple.DoOpen; Simple.DoAppend None 1 "a"]
      (∅, Simple.mkLog "log" None) in
  Simple.getSeqRangeTransactions 3 (Some 2) st = Err (DOMException DataError).
Proof.
  intros st.
  exact (proj2 (@range_below_start_throws string Z 3 2 "log"
                  ltac:(lia) ltac:(lia)) st.1 st.2 eq_refl).
Defined.

(** ** Ids without gaps *)

Section SeqFacts.

Lemma ascending_NoDup (ks : list positive) : ascending ks → NoDup ks.
Proof.
  unfold ascending. induction 1 as [|k ks _ IH Hall]; constructor; [|done].
  intros Hin. rewrite Forall_forall in Hall. specialize (Hall k Hin). lia.
Qed.

Local Instance Pos_lt_antisymm : AntiSymm (=) Pos.lt.
Proof. intros x y ??. lia. Qed.

Lemma ascending_ext (ks1 ks2 : list positive) :
  ascending ks1 → ascending ks2 → (∀ k, k ∈ ks1 ↔ k ∈ ks2) → ks1 = ks2.
Proof.
  intros H1 H2 Hiff. apply (StronglySorted_unique Pos.lt); [done..|].
  by apply NoDup_Permutation; [apply ascending_NoDup..|].
Qed.

Lemma elem_of_seq_keys (k : positive) (a m : nat) :
  (1 ≤ a)%nat →
  k ∈ Pos.of_nat <$> seq a m ↔ (a ≤ Pos.to_nat k < a + m)%nat.
Proof.
  intros Ha. rewrite list_elem_of_fmap. split.
  - intros (i & -> & Hi). apply elem_of_seq in Hi.
    rewrite Nat2Pos.id by lia. lia.
  - intros Hk. exists (Pos.to_nat k). split; [by rewrite Pos2Nat.id|].
    apply elem_of_seq. lia.
Qed.

Lemma ascending_seq_keys (a m : nat) :
  (1 ≤ a)%nat → ascending (Pos.of_nat <$> seq a m).
Proof.
  unfold ascending. revert a. induction m as [|m IH]; intros a Ha; [constructor|].
  cbn [seq]. rewrite fmap_cons. apply StronglySorted_cons. split; [|apply IH; lia].
  apply Forall_forall. intros k Hk. apply elem_of_seq_keys in Hk; [|lia].
  apply Pos2Nat.inj_lt. rewrite Nat2Pos.id by lia. lia.
Qed.

(** In a store without gaps the keys from [a] to [b] are all there. *)
Lemma gapless_range_keys {V} `{!KeyPath V} (s : ObjectStore V) r (a b : Z) :
  store_ok s → gapless s →
  (∀ k, includes r k = true ↔ in_range a (Some b) k) →
  1 ≤ a → a ≤ b → b ≤ count s →
  (openCursor (Some r) s).*1 =
    Pos.of_nat <$> seq (Z.to_nat a) (Z.to_nat (b - a + 1)).
Proof.
  intros Hok [Hkeys _] Hr Ha Hab Hb. unfold count in Hb.
  apply ascending_ext.
  - by apply openCursor_ascending.
  - apply ascending_seq_keys. lia.
  - intros k. rewrite elem_of_seq_keys by lia. rewrite list_elem_of_fmap. split.
    + intros ([k' v] & -> & Hin). apply elem_of_openCursor in Hin as [_ Hin].
      apply Hr in Hin. unfold in_range in Hin. cbn [fst] in *. lia.
    + intros Hk.
      assert (k ∈ (records s).*1) as Hin.
      { rewrite Hkeys. apply elem_of_seq_keys; lia. }
      apply list_elem_of_fmap in Hin as ([k' v] & -> & Hin).
      exists (k', v). split; [done|]. apply elem_of_openCursor. split; [done|].
      apply Hr. unfold in_range. cbn [fst] in *. lia.
Qed.

Lemma openCursor_ids {T Time} r (s : ObjectStore (Transaction T Time)) :
  store_ok s →
  txn_id <$> (openCursor (Some r) s).*2 = Some <$> (openCursor (Some r) s).*1.
Proof.
  intros [_ _ Hin].
  assert (Forall (λ kv, txn_id kv.2 = Some kv.1) (openCursor (Some r) s)) as H.
  { apply Forall_forall. intros kv Hkv. apply elem_of_openCursor in Hkv as [Hkv _].
    rewrite Forall_forall in Hin. by apply Hin. }
  induction H as [|[k t] rows Hk _ IH]; [done|].
  rewrite !fmap_cons. cbn in Hk. cbn [fst snd]. by rewrite Hk, IH.
Qed.
End SeqFacts.

(** X10. On an open log of either variant whose store has its ids
    without gaps, as every history keeps them: for
    [1 <= a <= b <= countTransactions()], [getSeqRangeTransactions(a, b)]
    returns exactly [b - a + 1] transactions, and their ids are
    [a, a + 1, ..., b]. *)
Theorem range_ids_consecutive {T Time : Type} (a b n : Z) (conn : string) :
  1 ≤ a → a ≤ b → b ≤ n →
  (∀ (w : Batched.World T Time) this,
     Batched.db this = Some conn →
     store_ok (Batched.txn_store (Batched.database conn w)) →
     gapless (Batched.txn_store (Batched.database conn w)) →
     Batched.countTransactions (w, this) = Ok n →
     ∃ ts, Batched.getSeqRangeTransactions a (Some b) (w, this) = Ok ts ∧
           txn_id <$> ts =
             (λ i, Some (Pos.of_nat i)) <$> seq (Z.to_nat a) (Z.to_nat (b - a + 1)) ∧
           Z.of_nat (length ts) = b - a + 1) ∧
  (∀ (w : Simple.World T Time) this,
     Simple.db this = Some conn →
     store_ok (Simple.simpletxn (Simple.database conn w)) →
     gapless (Simple.simpletxn (Simple.database conn w)) →
     Simple.countTransactions (w, this) = Ok n →
     ∃ ts, Simple.getSeqRangeTransactions a (Some b) (w, this) = Ok ts ∧
           txn_id <$> ts =
             (λ i, Some (Pos.of_nat i)) <$> seq (Z.to_nat a) (Z.to_nat (b - a + 1)) ∧
           Z.of_nat (length ts) = b - a + 1).
Proof.
  intros Ha Hab Hbn.
  destruct (key_range_valid a (Some b) Ha Hab) as (r & HB & HS & Hr).
  split; intros w this Hdb Hok Hgap Hn.
  - unfold Batched.countTransactions in Hn. rewrite Hdb in Hn.
    injection Hn as Hn. subst n.
    unfold Batched.getSeqRangeTransactions. rewrite Hdb, HB.
    eexists. split; [reflexivity|].
    pose proof (gapless_range_keys _ r a b Hok Hgap Hr Ha Hab Hbn) as Hkeys.
    split.
    + by rewrite openCursor_ids, Hkeys, <- list_fmap_compose.
    + rewrite length_fmap, <- (length_fmap fst), Hkeys, length_fmap, length_seq.
      lia.
  - unfold Simple.countTransactions in Hn. rewrite Hdb in Hn.
    injection Hn as Hn. subst n.
    unfold Simple.getSeqRangeTransactions. rewrite Hdb, HS.
    eexists. split; [reflexivity|].
    pose proof (gapless_range_keys _ r a b Hok Hgap Hr Ha Hab Hbn) as Hkeys.
    split.
    + by rewrite openCursor_ids, Hkeys, <- list_fmap_compose.
    + rewrite length_fmap, <- (length_fmap fst), Hkeys, length_fmap, length_seq.
      lia.
Qed.

(** Ids 2 to 4 of five, after a commit that failed in between. *)
Lemma range_ids_consecutive_witness :
  let ops : list (Batched.op string Z) :=
    [Batched.DoOpen; Batched.DoAppend 1 "a"; Batched.DoAppend 2 "b";
     Batched.DoCommit Batched.NoFault 3; Batched.DoAppend 4 "c";
     Batched.DoCommit (Batched.TxnAddFails 0) 5; Batched.DoAppend 6 "d";
     Batched.DoAppend 7 "e"; Batched.DoCommit Batched.NoFault 8] in
  let st := Batched.run ops (∅, Batched.mkLog "log" [] None) in
  ∃ ts, Batched.getSeqRangeTransactions 2 (Some 4) st = Ok ts ∧
        txn_id <$> ts = [Some 2%positive; Some 3%positive; Some 4%positive] ∧
        txn_data <$> ts = ["b"; "c"; "d"].
Proof.
  intros ops st.
  destruct (batched_run_invariant ops ∅ (Batched.mkLog "log" [] None))
    as (_ & _ & [[_ Hok] _ Hgap _]);
    [by intros ? [=] | apply batched_invariant_upgrade |].
  destruct (proj1 (@range_ids_consecutive string Z 2 4 5 "log"
                     ltac:(lia) ltac:(lia) ltac:(lia))
              st.1 st.2 eq_refl Hok Hgap eq_refl)
    as (ts & Hts & Hids & _).
  exists ts. split; [exact Hts|]. split; [exact Hids|].
  vm_compute in Hts. by injection Hts as <-.
Defined.

(** ** [append] of the simple log *)

(** X11. [append] on an open simple log: when the store completes the
    write, the call returns normally, one transaction with the given time
    and data is stored last under the next id, [countTransactions] is one
    more and [replay] passes the data after all earlier data; when the
    store fails the write, the call throws the store's exception and the
    databases and the log are as before. *)
Theorem simple_append_outcome {T Time : Type}
    (now : Time) (data : T) (w : Simple.World T Time)
    (this : Simple.Log) (conn : string) :
  Simple.db this = Some conn →
  let st := (w, this) in
  let store := Simple.simpletxn (Simple.database conn w) in
  let done := Simple.append None now data st in
  (∀ e, Simple.append (Some e) now data st = (st, Err (DOMException e))) ∧
  done.2 = Ok () ∧
  done.1.2 = this ∧
  Simple.stored conn done.1.1 =
    records store ++ [(keygen store, mkTransaction (Some (keygen store)) now data)] ∧
  Simple.countTransactions done.1 = Ok (count store + 1) ∧
  Simple.replay collect [] done.1 =
    ((Simple.replay collect [] st).1 ++ [data], Ok ()).
Proof.
  destruct this as [name c]. cbn [Simple.db]. intros ->. cbn zeta.
  unfold Simple.append, Simple.countTransactions, Simple.replay, Simple.stored.
  cbn [Simple.db add fst snd]. rewrite simple_database_insert.
  cbn [Simple.simpletxn records openCursor].
  rewrite !cursor_loop_collect. cbn [fst].
  split; [done|]. split; [done|]. split; [done|]. split; [done|]. split.
  - unfold count. cbn [records]. rewrite length_app. cbn. do 2 f_equal. lia.
  - by rewrite !fmap_app.
Qed.

(** A second entry, and a write that fails. *)
Lemma simple_append_outcome_witness :
  let st : Simple.State string Z :=
    Simple.run [Simple.DoOpen; Simple.DoAppend None 1 "a"]
      (∅, Simple.mkLog "log" None) in
  Simple.append (Some QuotaExceededError) 2 "b" st =
    (st, Err (DOMException QuotaExceededError)) ∧
  Simple.countTransactions (Simple.append None 2 "b" st).1 = Ok 2 ∧
  Simple.replay collect [] (Simple.append None 2 "b" st).1 = (["a"; "b"], Ok ()).
Proof.
  intros st.
  destruct (simple_append_outcome 2 "b" st.1 st.2 "log" eq_refl)
    as (Hfail & _ & _ & _ & Hcount & Hreplay).
  split; [apply Hfail|]. split; [exact Hcount | exact Hreplay].
Defined.

(** ** [clear] *)

(** X12. [clear] on a closed log of either variant returns normally and
    leaves the log object as it is (the batched log keeps its buffer).
    After the [open] that follows, nothing is stored: the counts are 0,
    the range queries from 1 return the empty list and [replay] does not
    invoke its callback; and ids start again at 1: the first transaction
    stored afterwards has id 1, which for the batched log is the first
    entry that was in the buffer when [clear] was called. *)
Theorem clear_then_open_is_empty {T Time : Type} :
  (∀ (w : Batched.World T Time) this,
     Batched.db this = None →
     let cleared := Batched.clear (w, this) in
     let opened := Batched.open cleared.1 in
     cleared.2 = Ok () ∧ cleared.1.2 = this ∧ opened.2 = Ok () ∧
     Batched.buffer opened.1.2 = Batched.buffer this ∧
     Batched.countTransactions opened.1 = Ok 0 ∧
     Batched.countCommits opened.1 = Ok 0 ∧
     Batched.getSeqRangeTransactions 1 None opened.1 = Ok [] ∧
     Batched.getSeqRangeCommits 1 None opened.1 = Ok [] ∧
     (∀ U (cb : callback T U) u, Batched.replay cb u opened.1 = (u, Ok ())) ∧
     ∀ now, Batched.getSeqRangeTransactions 1 None
              (Batched.commit Batched.NoFault now opened.1).1 =
            Ok (stamp 1%positive (Batched.buffer this)).*2) ∧
  (∀ (w : Simple.World T Time) this,
     Simple.db this = None →
     let cleared := Simple.clear (w, this) in
     let opened := Simple.open cleared.1 in
     cleared.2 = Ok () ∧ cleared.1.2 = this ∧ opened.2 = Ok () ∧
     Simple.countTransactions opened.1 = Ok 0 ∧
     Simple.getSeqRangeTransactions 1 None opened.1 = Ok [] ∧
     (∀ U (cb : callback T U) u, Simple.replay cb u opened.1 = (u, Ok ())) ∧
     ∀ now data, Simple.getSeqRangeTransactions 1 None
                   (Simple.append None now data opened.1).1 =
                 Ok [mkTransaction (Some 1%positive) now data]).
Proof.
  split.
  - intros w [name buf c]. cbn [Batched.db]. intros ->. cbn zeta.
    unfold Batched.clear. cbn [Batched.db fst snd Batched.dbName].
    rewrite batched_open_closed by done.
    cbn [fst snd Batched.dbName Batched.set_db Batched.buffer].
    assert (∀ w' : Batched.World T Time,
              Batched.database name
                (Batched.openDB name (Batched.deleteDB name w')).1 =
              Batched.upgrade) as Hd.
    { intros w'. by rewrite batched_database_openDB, batched_database_deleteDB. }
    do 4 (split; [done|]).
    unfold Batched.countTransactions, Batched.countCommits,
      Batched.getSeqRangeTransactions, Batched.getSeqRangeCommits,
      Batched.replay, Batched.key_range, Batched.set_db.
    cbn [Batched.db Batched.buffer Batched.dbName truthy mbind result_bind].
    change (1 <? 1) with false. cbn [mbind result_bind]. rewrite Hd.
    do 5 (split; [done|]). intros now.
    rewrite (batched_commit_outcome _ now _ _ name) by done.
    cbn [Batched.fault_occurs fst Batched.set_buffer Batched.db Batched.buffer].
    rewrite batched_database_insert, Hd, openCursor_from_1.
    unfold Batched.committed. cbn [Batched.txn_store].
    destruct (add_all_eq buf (Batched.txn_store (Batched.upgrade (T:=T) (Time:=Time))))
      as [_ ->]. done.
  - intros w [name c]. cbn [Simple.db]. intros ->. cbn zeta.
    unfold Simple.clear. cbn [Simple.db fst snd Simple.dbName].
    rewrite simple_open_closed by done.
    cbn [fst snd Simple.dbName Simple.set_db].
    assert (∀ w' : Simple.World T Time,
              Simple.database name
                (Simple.openDB name (Simple.deleteDB name w')).1 =
              Simple.upgrade) as Hd.
    { intros w'. by rewrite simple_database_openDB, simple_database_deleteDB. }
    do 3 (split; [done|]).
    unfold Simple.countTransactions, Simple.getSeqRangeTransactions,
      Simple.replay, Simple.key_range, Simple.append, Simple.set_db.
    cbn [Simple.db Simple.dbName truthy mbind result_bind fst snd add].
    rewrite Hd.
    do 3 (split; [done|]). intros now data.
    by rewrite simple_database_insert, openCursor_from_1.
Qed.

(** A log with two stored transactions and one buffered entry is closed
    and cleared. *)
Lemma clear_then_open_is_empty_witness :
  let st : Batched.State string Z :=
    Batched.run [Batched.DoOpen; Batched.DoAppend 1 "a"; Batched.DoAppend 2 "b";
                 Batched.DoCommit Batched.NoFault 3; Batched.DoAppend 4 "c";
                 Batched.DoClose]
      (∅, Batched.mkLog "log" [] None) in
  let opened := Batched.open (Batched.clear st).1 in
  Batched.countTransactions opened.1 = Ok 0 ∧
  Batched.countCommits opened.1 = Ok 0 ∧
  Batched.getSeqRangeTransactions 1 None
    (Batched.commit Batched.NoFault 5 opened.1).1 =
    Ok [mkTransaction (Some 1%positive) 4 "c"].
Proof.
  intros st opened.
  destruct (proj1 (@clear_then_open_is_empty string Z) st.1 st.2 eq_refl)
    as (_ & _ & _ & _ & Ht & Hc & _ & _ & _ & Hnext).
  split; [exact Ht|]. split; [exact Hc | exact (Hnext 5)].
Defined.

(** ** Databases of other names *)

Section IsolationFacts.
Context {T Time : Type}.

Lemma batched_step_other (o : Batched.op T Time) (st : Batched.State T Time)
    (other : string) :
  Batched.log_ok st.2 → other ≠ Batched.dbName st.2 →
  (Batched.step o st).1.1 !! other = st.1 !! other.
Proof.
  destruct st as [w this]. cbn [fst snd]. intros Hok Hne.
  destruct o as [| | |now data|f now]; cbn [Batched.step].
  - destruct this as [name buf [conn|]]; [done|]. simpl in *.
    unfold Batched.openDB. destruct (w !! name); [done|]. simpl.
    unfold Batched.World in *. by rewrite lookup_insert_ne.
  - by destruct this as [name buf [conn|]].
  - destruct this as [name buf [conn|]]; [done|]. simpl in *.
    unfold Batched.deleteDB, Batched.World in *. by rewrite lookup_delete_ne.
  - by destruct this as [name buf [conn|]].
  - destruct (Batched.db this) as [conn|] eqn:E.
    + rewrite (batched_commit_outcome f now w this conn E).
      rewrite (Hok conn E).
      destruct (Batched.fault_occurs f _); [done|]. cbn [fst].
      unfold Batched.World in *. by rewrite lookup_insert_ne.
    + unfold Batched.commit. by rewrite E.
Qed.

Lemma simple_step_other (o : Simple.op T Time) (st : Simple.State T Time)
    (other : string) :
  Simple.log_ok st.2 → other ≠ Simple.dbName st.2 →
  (Simple.step o st).1.1 !! other = st.1 !! other.
Proof.
  destruct st as [w [name [conn|]]]; cbn [fst snd Simple.dbName];
    intros Hok Hne; destruct o as [| | |[e|] now data]; try done; simpl.
  - pose proof (Hok conn eq_refl) as Hc. simpl in Hc. subst conn.
    unfold Simple.World in *. by rewrite lookup_insert_ne.
  - unfold Simple.openDB. destruct (w !! name); [done|]. simpl.
    unfold Simple.World in *. by rewrite lookup_insert_ne.
  - unfold Simple.deleteDB, Simple.World in *. by rewrite lookup_delete_ne.
Qed.
End IsolationFacts.

(** X13. A log of either variant, whatever it is made to do ([open],
    [close], [clear], [append], [commit], failing calls and store
    failures included), changes no database but the one of its own name:
    every other name holds afterwards what it held before. *)
Theorem other_databases_untouched {T Time : Type} (other : string) :
  (∀ ops (w : Batched.World T Time) this,
     Batched.log_ok this → other ≠ Batched.dbName this →
     (Batched.run ops (w, this)).1 !! other = w !! other) ∧
  (∀ ops (w : Simple.World T Time) this,
     Simple.log_ok this → other ≠ Simple.dbName this →
     (Simple.run ops (w, this)).1 !! other = w !! other).
Proof.
  split.
  - induction ops as [|o ops IH]; intros w this Hok Hne; [done|].
    cbn [Batched.run foldl].
    fold (Batched.run ops (Batched.step o (w, this)).1).
    destruct (batched_step_log_ok o (w, this) Hok) as [Hok' Hname'].
    pose proof (batched_step_other o (w, this) other Hok Hne) as Hstep.
    destruct (Batched.step o (w, this)).1 as [w' this']. cbn [fst snd] in *.
    rewrite IH; [done..|]. by rewrite Hname'.
  - induction ops as [|o ops IH]; intros w this Hok Hne; [done|].
    cbn [Simple.run foldl].
    fold (Simple.run ops (Simple.step o (w, this)).1).
    destruct (simple_step_log_ok o (w, this) Hok) as [Hok' Hname'].
    pose proof (simple_step_other o (w, this) other Hok Hne) as Hstep.
    destruct (Simple.step o (w, this)).1 as [w' this']. cbn [fst snd] in *.
    rewrite IH; [done..|]. by rewrite Hname'.
Qed.

(** A log named "b" is cleared and written to beside the database "a". *)
Lemma other_databases_untouched_witness :
  let a : Batched.State string Z :=
    Batched.run [Batched.DoOpen; Batched.DoAppend 1 "x";
                 Batched.DoCommit Batched.NoFault 2; Batched.DoClose]
      (∅, Batched.mkLog "a" [] None) in
  let ops : list (Batched.op string Z) :=
    [Batched.DoClear; Batched.DoOpen; Batched.DoAppend 3 "y";
     Batched.DoCommit Batched.NoFault 4] in
  (Batched.run ops (a.1, Batched.mkLog "b" [] None)).1 !! "a" = a.1 !! "a".
Proof.
  intros a ops.
  apply (proj1 (@other_databases_untouched string Z "a")).
  - by intros ? [=].
  - discriminate.
Defined.

(** ** Callbacks *)

Lemma then_hook_outcome {S U} (method : S → S * result unit) (h : hook U)
    st st' u :
  method st = (st', Ok ()) →
  (then_hook method h st u).1.1 = st' ∧
  hook_outcome h u (then_hook method h st u).1.2 (then_hook method h st u).2.
Proof.
  intros Hm. unfold then_hook. rewrite Hm. destruct h as [f|]; simpl.
  - destruct (f u) as [u' [e|]] eqn:Hf; simpl; split; try done.
    + by apply hook_throws.
    + by apply hook_returns.
  - split; [done|]. apply hook_absent.
Qed.

Lemma then_hook_fails {S U} (method : S → S * result unit) (h : hook U)
    st st' u e :
  method st = (st', Err e) → then_hook method h st u = (st', u, Err e).
Proof. intros Hm. unfold then_hook. by rewrite Hm. Qed.

(** X14. With callbacks given to the constructor (callbacks that do not
    call the log themselves), in both variants. A call of [open],
    [close], [clear] or [append] that throws (a log already open, already
    closed, open when cleared, closed when appended to, a write the store
    fails) does not invoke its callback and changes nothing. A call that
    gets through makes its change first - after [open] the log is open
    and a second [open] throws the already-open error; after [close] it
    is closed, the databases and the buffer as they were; after [clear]
    no database of the name exists; the batched [append] has buffered the
    entry, the simple [append] has stored it last, under the next id -
    and then reaches its callback: with none given the call returns;
    one given is run once ([onappend] on the data appended); when it
    returns the call returns, and when it throws the call throws that
    exception, the change standing in either case. *)
Theorem callbacks_run_after_the_change {T Time U : Type} (cbs : Callbacks T U) :
  let onappend_of (data : T) : hook U :=
    match onappend cbs with Some f => Some (f data) | None => None end in
  (∀ (st : Batched.State T Time) u,
     Batched.isOpen st = true →
     BatchedHooks.open cbs st u = (st, u, Err (Error LOG_ALREADY_OPEN_MESSAGE)) ∧
     BatchedHooks.clear cbs st u = (st, u, Err (Error LOG_OPEN_CANNOT_CLEAR_MESSAGE)) ∧
     (let done := BatchedHooks.close cbs st u in
      hook_outcome (onclose cbs) u done.1.2 done.2 ∧
      done.1.1 = (Batched.close st).1 ∧
      Batched.isOpen done.1.1 = false ∧
      done.1.1.1 = st.1 ∧
      Batched.buffer done.1.1.2 = Batched.buffer st.2) ∧
     ∀ now data,
       let done := BatchedHooks.append cbs now data st u in
       hook_outcome (onappend_of data) u done.1.2 done.2 ∧
       done.1.1 = (Batched.append now data st).1 ∧
       Batched.isOpen done.1.1 = true ∧
       done.1.1.1 = st.1 ∧
       Batched.buffer done.1.1.2 =
         Batched.buffer st.2 ++ [mkTransaction None now data]) ∧
  (∀ (st : Batched.State T Time) u,
     Batched.isOpen st = false →
     BatchedHooks.close cbs st u = (st, u, Err (Error LOG_ALREADY_CLOSED_MESSAGE)) ∧
     (∀ now data,
        BatchedHooks.append cbs now data st u =
          (st, u, Err (Error LOG_CLOSED_MESSAGE))) ∧
     (let done := BatchedHooks.open cbs st u in
      hook_outcome (onopen cbs) u done.1.2 done.2 ∧
      done.1.1 = (Batched.open st).1 ∧
      Batched.isOpen done.1.1 = true ∧
      Batched.buffer done.1.1.2 = Batched.buffer st.2 ∧
      (Batched.open done.1.1).2 = Err (Error LOG_ALREADY_OPEN_MESSAGE)) ∧
     (let done := BatchedHooks.clear cbs st u in
      hook_outcome (onclear cbs) u done.1.2 done.2 ∧
      done.1.1 = (Batched.clear st).1 ∧
      done.1.1.1 !! Batched.dbName st.2 = None ∧
      done.1.1.2 = st.2)) ∧
  (∀ (st : Simple.State T Time) u conn,
     Simple.db st.2 = Some conn →
     SimpleHooks.open cbs st u = (st, u, Err (Error LOG_ALREADY_OPEN_MESSAGE)) ∧
     SimpleHooks.clear cbs st u = (st, u, Err (Error LOG_OPEN_CANNOT_CLEAR_MESSAGE)) ∧
     (let done := SimpleHooks.close cbs st u in
      hook_outcome (onclose cbs) u done.1.2 done.2 ∧
      done.1.1 = (Simple.close st).1 ∧
      Simple.isOpen done.1.1 = false ∧
      done.1.1.1 = st.1) ∧
     ∀ now data,
       (∀ e, SimpleHooks.append cbs (Some e) now data st u =
               (st, u, Err (DOMException e))) ∧
       let store := Simple.simpletxn (Simple.database conn st.1) in
       let done := SimpleHooks.append cbs None now data st u in
       hook_outcome (onappend_of data) u done.1.2 done.2 ∧
       done.1.1 = (Simple.append None now data st).1 ∧
       Simple.isOpen done.1.1 = true ∧
       Simple.stored conn done.1.1.1 =
         records store ++
         [(keygen store, mkTransaction (Some (keygen store)) now data)] ∧
       Simple.countTransactions done.1.1 = Ok (count store + 1)) ∧
  (∀ (st : Simple.State T Time) u,
     Simple.isOpen st = false →
     SimpleHooks.close cbs st u = (st, u, Err (Error LOG_ALREADY_CLOSED_MESSAGE)) ∧
     (∀ failure now data,
        SimpleHooks.append cbs failure now data st u =
          (st, u, Err (Error LOG_CLOSED_MESSAGE))) ∧
     (let done := SimpleHooks.open cbs st u in
      hook_outcome (onopen cbs) u done.1.2 done.2 ∧
      done.1.1 = (Simple.open st).1 ∧
      Simple.isOpen done.1.1 = true ∧
      (Simple.open done.1.1).2 = Err (Error LOG_ALREADY_OPEN_MESSAGE)) ∧
     (let done := SimpleHooks.clear cbs st u in
      hook_outcome (onclear cbs) u done.1.2 done.2 ∧
      done.1.1 = (Simple.clear st).1 ∧
      done.1.1.1 !! Simple.dbName st.2 = None ∧
      done.1.1.2 = st.2)).
Proof.
  intros onappend_of.
  split; [|split; [|split]].
  - intros [w [name buf [c|]]] u Hopen; [clear Hopen|done].
    split; [done|]. split; [done|]. split.
    + destruct (then_hook_outcome Batched.close (onclose cbs)
                  (w, Batched.mkLog name buf (Some c)) _ u eq_refl) as [Hst Hh].
      cbn zeta. unfold BatchedHooks.close. rewrite Hst.
      split; [exact Hh|]. done.
    + intros now data.
      destruct (then_hook_outcome (Batched.append now data)
                  (onappend_with cbs data)
                  (w, Batched.mkLog name buf (Some c)) _ u eq_refl) as [Hst Hh].
      cbn zeta. unfold BatchedHooks.append. rewrite Hst.
      split; [exact Hh|]. done.
  - intros [w [name buf [c|]]] u Hopen; [done|clear Hopen].
    split; [done|]. split; [done|]. split.
    + pose proof (batched_open_closed w (Batched.mkLog name buf None) eq_refl)
        as Hm.
      destruct (then_hook_outcome Batched.open (onopen cbs) _ _ u Hm)
        as [Hst Hh].
      cbn zeta. unfold BatchedHooks.open. rewrite Hst, Hm.
      split; [exact Hh|]. done.
    + destruct (then_hook_outcome Batched.clear (onclear cbs)
                  (w, Batched.mkLog name buf None) _ u eq_refl) as [Hst Hh].
      cbn zeta. unfold BatchedHooks.clear. rewrite Hst.
      split; [exact Hh|]. split; [done|]. split; [|done].
      cbn [fst snd Batched.dbName]. unfold Batched.deleteDB, Batched.World in *.
      by rewrite lookup_delete_eq.
  - intros [w [name [c|]]] u conn Hdb; [|done].
    cbn [snd Simple.db] in Hdb. injection Hdb as ->.
    split; [done|]. split; [done|]. split.
    + destruct (then_hook_outcome Simple.close (onclose cbs)
                  (w, Simple.mkLog name (Some conn)) _ u eq_refl) as [Hst Hh].
      cbn zeta. unfold SimpleHooks.close. rewrite Hst.
      split; [exact Hh|]. done.
    + intros now data. split; [done|].
      destruct (then_hook_outcome (Simple.append None now data)
                  (onappend_with cbs data)
                  (w, Simple.mkLog name (Some conn)) _ u eq_refl) as [Hst Hh].
      cbn zeta. unfold SimpleHooks.append. rewrite Hst.
      split; [exact Hh|]. split; [done|]. split; [done|].
      unfold Simple.countTransactions, Simple.stored.
      cbn [Simple.db add fst snd]. rewrite simple_database_insert.
      cbn [Simple.simpletxn records]. split; [done|].
      unfold count. cbn [records]. rewrite length_app. cbn. do 2 f_equal. lia.
  - intros [w [name [c|]]] u Hopen; [done|clear Hopen].
    split; [done|]. split; [done|]. split.
    + pose proof (simple_open_closed w (Simple.mkLog name None) eq_refl) as Hm.
      destruct (then_hook_outcome Simple.open (onopen cbs) _ _ u Hm)
        as [Hst Hh].
      cbn zeta. unfold SimpleHooks.open. rewrite Hst, Hm.
      split; [exact Hh|]. done.
    + destruct (then_hook_outcome Simple.clear (onclear cbs)
                  (w, Simple.mkLog name None) _ u eq_refl) as [Hst Hh].
      cbn zeta. unfold SimpleHooks.clear. rewrite Hst.
      split; [exact Hh|]. split; [done|]. split; [|done].
      cbn [fst snd Simple.dbName]. unfold Simple.deleteDB, Simple.World in *.
      by rewrite lookup_delete_eq.
Qed.

(** An [onopen] that throws and an [onclose] that returns, both counting
    their invocations, and no [onappend]: the throwing [open] has opened
    the log, the [close] and the [append] that follow get through. *)
Lemma callbacks_run_after_the_change_witness :
  let cbs : Callbacks string nat :=
    mkCallbacks (Some (λ n, (S n, Some "boom"))) (Some (λ n, (S n, None)))
      None None in
  let st : Batched.State string Z := (∅, Batched.mkLog "log" [] None) in
  let opened := BatchedHooks.open cbs st 0%nat in
  let appended := BatchedHooks.append cbs 1 "a" opened.1.1 opened.1.2 in
  let closed := BatchedHooks.close cbs appended.1.1 appended.1.2 in
  hook_outcome (onopen cbs) 0%nat opened.1.2 opened.2 ∧
  (opened.1.2, opened.2) = (1%nat, Err (Thrown "boom")) ∧
  Batched.isOpen opened.1.1 = true ∧
  hook_outcome None 1%nat appended.1.2 appended.2 ∧
  (appended.1.2, appended.2) = (1%nat, Ok ()) ∧
  Batched.buffer appended.1.1.2 = [mkTransaction None 1 "a"] ∧
  hook_outcome (onclose cbs) 1%nat closed.1.2 closed.2 ∧
  (closed.1.2, closed.2) = (2%nat, Ok ()) ∧
  Batched.isOpen closed.1.1 = false ∧
  Batched.buffer closed.1.1.2 = [mkTransaction None 1 "a"].
Proof.
  intros cbs st opened appended closed.
  destruct (@callbacks_run_after_the_change string Z nat cbs)
    as (Hopen & Hclosed & _).
  destruct (Hclosed st 0%nat eq_refl) as (_ & _ & (Hh1 & _ & Ho1 & _) & _).
  destruct (Hopen opened.1.1 opened.1.2 eq_refl) as (_ & _ & _ & Happend).
  destruct (Happend 1 "a") as (Hh2 & _ & _ & _ & Hb2).
  destruct (Hopen appended.1.1 appended.1.2 eq_refl)
    as (_ & _ & (Hh3 & _ & Ho3 & _ & Hb3) & _).
  split; [exact Hh1|]. split; [reflexivity|]. split; [exact Ho1|].
  split; [exact Hh2|]. split; [reflexivity|]. split; [exact Hb2|].
  split; [exact Hh3|]. split; [reflexivity|]. split; [exact Ho3|].
  exact Hb3.
Defined.

(** Without callbacks the methods are the ones without a callback
    call. *)
Lemma no_callbacks_plain {T Time U : Type} (u : U) :
  (∀ st : Batched.State T Time,
     BatchedHooks.open no_callbacks st u = ((Batched.open st).1, u, (Batched.open st).2) ∧
     BatchedHooks.close no_callbacks st u = ((Batched.close st).1, u, (Batched.close st).2) ∧
     BatchedHooks.clear no_callbacks st u = ((Batched.clear st).1, u, (Batched.clear st).2) ∧
     ∀ now data,
       BatchedHooks.append no_callbacks now data st u =
         ((Batched.append now data st).1, u, (Batched.append now data st).2)) ∧
  (∀ st : Simple.State T Time,
     SimpleHooks.open no_callbacks st u = ((Simple.open st).1, u, (Simple.open st).2) ∧
     SimpleHooks.close no_callbacks st u = ((Simple.close st).1, u, (Simple.close st).2) ∧
     SimpleHooks.clear no_callbacks st u = ((Simple.clear st).1, u, (Simple.clear st).2) ∧
     ∀ failure now data,
       SimpleHooks.append no_callbacks failure now data st u =
         ((Simple.append failure now data st).1, u,
          (Simple.append failure now data st).2)).
Proof.
  assert (∀ S (m : S → S * result unit) st,
            then_hook m (None : hook U) st u = ((m st).1, u, (m st).2)) as H.
  { intros S m st. unfold then_hook. by destruct (m st) as [st' [[]|e]]. }
  split; intros st; repeat split; intros; apply H.
Qed.

(** ** A commit and the query for it *)

Section CommitQueryFacts.
Context {T Time : Type}.

Lemma filter_none {A} (P : A → Prop) `{!∀ x, Decision (P x)} (l : list A) :
  Forall (λ x, ¬ P x) l → filter P l = [].
Proof.
  induction 1 as [|x l Hx _ IH]; [done|].
  rewrite filter_cons. by destruct (decide (P x)).
Qed.

Lemma Forall2_keys_values {V} (P : positive → V → Prop) (l : list (positive * V)) :
  Forall (λ kv, P kv.1 kv.2) l → Forall2 P l.*1 l.*2.
Proof. induction 1; rewrite ?fmap_cons; constructor; done. Qed.

(** Every id a commit has just assigned resolves to the record stored
    under it. *)
Lemma resolve_committed now (buf : list (Transaction T Time))
    (d : Batched.Database T Time) :
  store_ok (Batched.txn_store d) →
  for_each (Batched.resolve (Batched.committed now buf d))
    (stamp (keygen (Batched.txn_store d)) buf).*1 =
  Ok (stamp (keygen (Batched.txn_store d)) buf).*2.
Proof.
  intros Hok. apply for_each_Ok. apply Forall2_keys_values, Forall_forall.
  intros [k t] Hin. cbn [fst snd]. unfold Batched.resolve, get.
  pose proof (store_ok_add_all Transaction_keyPath_inject buf _ Hok) as [Hasc _ _].
  rewrite (get_record_elem_of k _ t); [done|exact Hasc|].
  unfold Batched.committed. cbn [Batched.txn_store].
  destruct (add_all_eq buf (Batched.txn_store d)) as [_ ->].
  apply elem_of_app. by right.
Qed.
End CommitQueryFacts.

(** X15. On an open batched log whose stores have their ids in order and
    without gaps, let [m] be [countCommits()]. After a [commit] that the
    store does not fail, [getSeqRangeCommits(m + 1)] returns exactly one
    [CommitInfo]: its id is [m + 1], its time the time of the commit, and
    its transactions are the entries that were buffered, in the order of
    the buffer, each with its time and data and with the id the store
    gave it. *)
Theorem commit_then_getSeqRangeCommits {T Time : Type}
    (now : Time) (w : Batched.World T Time) (this : Batched.Log T Time)
    (conn : string) :
  Batched.db this = Some conn →
  Batched.database_ok (Batched.database conn w) →
  gapless (Batched.commit_store (Batched.database conn w)) →
  let d := Batched.database conn w in
  let m := count (Batched.commit_store d) in
  let done := Batched.commit Batched.NoFault now (w, this) in
  let rows := stamp (keygen (Batched.txn_store d)) (Batched.buffer this) in
  Batched.getSeqRangeCommits (m + 1) None done.1 =
    Ok [mkCommitInfo (keygen (Batched.commit_store d)) now rows.*2] ∧
  Z.pos (keygen (Batched.commit_store d)) = m + 1 ∧
  payload <$> rows.*2 = payload <$> Batched.buffer this ∧
  txn_id <$> rows.*2 = Some <$> rows.*1.
Proof.
  destruct this as [name buf c]. cbn [Batched.db Batched.buffer].
  intros -> [Hc Ht] [_ Hgen]. cbn zeta.
  assert (Z.pos (keygen (Batched.commit_store (Batched.database conn w))) =
          count (Batched.commit_store (Batched.database conn w)) + 1) as Hid.
  { unfold count. lia. }
  split; [|split; [exact Hid|split; [apply stamp_payload|]]].
  - rewrite (batched_commit_outcome _ now w (Batched.mkLog name buf (Some conn))
               conn eq_refl).
    cbn [Batched.fault_occurs fst Batched.buffer].
    unfold Batched.getSeqRangeCommits, Batched.set_buffer, Batched.key_range.
    cbn [Batched.db truthy]. rewrite batched_database_insert.
    destruct (Z.ltb_spec
                (count (Batched.commit_store (Batched.database conn w)) + 1) 1)
      as [Hlt|_]; [unfold count in Hlt; exfalso; lia|].
    cbn [mbind result_bind]. unfold openCursor.
    change (records (Batched.commit_store
                       (Batched.committed now buf (Batched.database conn w))))
      with (records (Batched.commit_store (Batched.database conn w)) ++
            [(keygen (Batched.commit_store (Batched.database conn w)),
              mkCommit (Some (keygen (Batched.commit_store (Batched.database conn w))))
                now (add_all buf (Batched.txn_store (Batched.database conn w))).1)]).
    rewrite filter_app, filter_none.
    + rewrite filter_cons. cbn [fst includes].
      destruct (decide _) as [_|Hn];
        [|exfalso; apply Hn, Z.leb_le; lia].
      rewrite filter_nil. cbn [app for_each commit_transactions commit_time].
      destruct (add_all_eq buf (Batched.txn_store (Batched.database conn w)))
        as [-> _].
      rewrite resolve_committed by done. done.
    + destruct Hc as [_ Hkeys _]. apply Forall_forall. intros [k v] Hin.
      cbn [fst includes]. rewrite Forall_forall in Hkeys.
      assert (k < keygen (Batched.commit_store (Batched.database conn w)))%positive
        as Hk by (apply Hkeys, list_elem_of_fmap; by exists (k, v)).
      rewrite Z.leb_le. lia.
  - pose proof (store_ok_add_all Transaction_keyPath_inject buf _ Ht)
      as [_ _ Hin].
    destruct (add_all_eq buf (Batched.txn_store (Batched.database conn w)))
      as [_ Hrows]. rewrite Hrows in Hin. apply Forall_app in Hin as [_ Hin].
    clear Hrows.
    generalize dependent (stamp (keygen (Batched.txn_store (Batched.database conn w))) buf).
    intros rows Hin.
    induction Hin as [|[k t] rows Hk _ IH]; [done|].
    rewrite !fmap_cons. cbn in Hk. cbn [fst snd]. by rewrite Hk, IH.
Qed.

(** The second commit of a log, asked for by its id. *)
Lemma commit_then_getSeqRangeCommits_witness :
  let st : Batched.State string Z :=
    Batched.run [Batched.DoOpen; Batched.DoAppend 1 "a"; Batched.DoAppend 2 "b";
                 Batched.DoAppend 3 "c"; Batched.DoCommit Batched.NoFault 4;
                 Batched.DoAppend 5 "d"]
      (∅, Batched.mkLog "log" [] None) in
  Batched.getSeqRangeCommits 2 None (Batched.commit Batched.NoFault 6 st).1 =
    Ok [mkCommitInfo 2%positive 6 [mkTransaction (Some 4%positive) 5 "d"]].
Proof.
  intros st.
  destruct (batched_run_invariant
              [Batched.DoOpen; Batched.DoAppend 1 "a"; Batched.DoAppend 2 "b";
               Batched.DoAppend 3 "c"; Batched.DoCommit Batched.NoFault 4;
               Batched.DoAppend 5 "d"]
              ∅ (Batched.mkLog "log" [] None))
    as (_ & _ & [Hok Hgap _ _]); [by intros ? [=] | apply batched_invariant_upgrade |].
  destruct (commit_then_getSeqRangeCommits 6 st.1 st.2 "log" eq_refl Hok Hgap)
    as (Hquery & _).
  exact Hquery.
Defined.
